(** * Command registry of the agent shell: [vibe/cli/commands.py]

    A shallow embedding of [Command], [CustomCommand] and [CommandRegistry],
    together with the Python string and dictionary operations they rely on,
    and the properties of alias resolution, custom-command discovery,
    template rendering and help-text layout.

    Python strings are modelled by [string]; a character is a code point
    below 256 (the Latin-1 block of Unicode), which is what [ascii] holds. *)

From Stdlib Require Import Ascii String NArith Sorting.Sorted Sorting.Permutation.
From stdpp Require Import gmap strings list fin_maps.

Local Open Scope string_scope.

(** ** Python [str] methods used by the registry *)

Module Str.

Definition code (c : ascii) : N := N_of_ascii c.

(** [str.isspace] on one code point below 256: TAB..CR, FS..US, SPACE,
    NEL (0x85) and NBSP (0xA0). *)
Definition isspace (c : ascii) : bool :=
  let n := code c in
  ((9 <=? n) && (n <=? 13) || (28 <=? n) && (n <=? 32)
   || (n =? 133) || (n =? 160))%N.

(** Code points below 256 that [str.lower] changes: A..Z and the Latin-1
    capitals 0xC0..0xDE without the multiplication sign 0xD7. *)
Definition isupper (c : ascii) : bool :=
  let n := code c in
  ((65 <=? n) && (n <=? 90)
   || (192 <=? n) && (n <=? 222) && negb (n =? 215))%N.

Definition lower_char (c : ascii) : ascii :=
  if isupper c then ascii_of_N (code c + 32) else c.

Fixpoint lower (s : string) : string :=
  match s with
  | "" => ""
  | String c s' => String (lower_char c) (lower s')
  end.

Fixpoint lstrip (s : string) : string :=
  match s with
  | "" => ""
  | String c s' => if isspace c then lstrip s' else s
  end.

Fixpoint rstrip (s : string) : string :=
  match s with
  | "" => ""
  | String c s' =>
      match rstrip s' with
      | "" => if isspace c then "" else String c ""
      | r => String c r
      end
  end.

Definition strip (s : string) : string := rstrip (lstrip s).

(** The first whitespace-free run of [s] and what follows it. *)
Fixpoint take_word (s : string) : string :=
  match s with
  | "" => ""
  | String c s' => if isspace c then "" else String c (take_word s')
  end.

Fixpoint drop_word (s : string) : string :=
  match s with
  | "" => ""
  | String c s' => if isspace c then s else drop_word s'
  end.

(** [s.split(maxsplit=1)]: whitespace separator, at most one split.  The
    remainder keeps its trailing whitespace and loses the leading one. *)
Definition split1 (s : string) : list string :=
  match lstrip s with
  | "" => []
  | w => take_word w ::
         match lstrip (drop_word w) with
         | "" => []
         | rest => [rest]
         end
  end.

Fixpoint startswith (p s : string) : bool :=
  match p, s with
  | "", _ => true
  | String a p', String b s' => if ascii_dec a b then startswith p' s' else false
  | String _ _, "" => false
  end.

(** [s[1:]] *)
Definition tail (s : string) : string :=
  match s with
  | "" => ""
  | String _ s' => s'
  end.

(** [s[:n]] *)
Fixpoint take (n : nat) (s : string) : string :=
  match n, s with
  | S n', String c s' => String c (take n' s')
  | _, _ => ""
  end.

(** [s.split("\n")[0]] *)
Fixpoint first_line (s : string) : string :=
  match s with
  | "" => ""
  | String c s' => if ascii_dec c "010" then "" else String c (first_line s')
  end.

(** [sep.join(l)] *)
Fixpoint join (sep : string) (l : list string) : string :=
  match l with
  | [] => ""
  | [x] => x
  | x :: l' => x ++ sep ++ join sep l'
  end.

(** [s.replace(old, new)] for a non-empty [old]: scan from the left; at a
    match emit [new] and jump over the match ([skip] counts the characters
    of the match still to jump over), otherwise copy one character. *)
Fixpoint replace_from (skip : nat) (old new s : string) : string :=
  match s with
  | "" => ""
  | String c s' =>
      match skip with
      | S k => replace_from k old new s'
      | O =>
          if startswith old s
          then new ++ replace_from (String.length old - 1) old new s'
          else String c (replace_from 0 old new s')
      end
  end.

Definition replace (old new s : string) : string := replace_from 0 old new s.

(** [sorted(l)] on strings: ascending code-point order. *)
Fixpoint insert_sorted (x : string) (l : list string) : list string :=
  match l with
  | [] => [x]
  | y :: l' => if String.leb x y then x :: l else y :: insert_sorted x l'
  end.

Fixpoint sorted (l : list string) : list string :=
  match l with
  | [] => []
  | x :: l' => insert_sorted x (sorted l')
  end.


End Str.

(** ** Python [dict] with string keys: insertion-ordered, keys unique *)

Module Dict.
Abbreviation t V := (list (string * V)) (only parsing).

Section Ops.
Context {V : Type}.

(** [d.get(k)] *)
Fixpoint get (k : string) (d : t V) : option V :=
  match d with
  | [] => None
  | (k', v) :: d' => if decide (k = k') then Some v else get k d'
  end.

(** [d.pop(k, None)], result dropped *)
Fixpoint pop (k : string) (d : t V) : t V :=
  match d with
  | [] => []
  | (k', v) :: d' => if decide (k = k') then d' else (k', v) :: pop k d'
  end.

(** [d[k] = v]: an existing key keeps its position *)
Fixpoint set (k : string) (v : V) (d : t V) : t V :=
  match d with
  | [] => [(k, v)]
  | (k', v') :: d' =>
      if decide (k = k') then (k, v) :: d' else (k', v') :: set k v d'
  end.

End Ops.

Abbreviation keys d := (d.*1) (only parsing).
Abbreviation values d := (d.*2) (only parsing).
End Dict.

(** ** Exceptions *)

Inductive exn : Type :=
| KeyError (key : string)
| ReadError (stem : string).

Inductive result (A : Type) : Type :=
| Ok (a : A)
| Raise (e : exn).
Arguments Ok {A} a.
Arguments Raise {A} e.

(** Sequencing: an exception ends the computation.  With these instances
    [x ← m; k] is stdpp's notation for it. *)
#[global] Instance result_ret : MRet result := fun _ a => Ok a.
#[global] Instance result_bind : MBind result := fun _ _ f m =>
  match m with
  | Ok a => f a
  | Raise e => Raise e
  end.

(** ** Data model *)

Record Command : Type := {
  aliases : list string;   (* the elements of the frozenset *)
  description : string;
  handler : string;
  exits : bool
}.

Record CustomCommand : Type := {
  name : string;
  template : string
}.


Definition custom_description (c : CustomCommand) : string :=
  let first_line := Str.take 50 (Str.first_line (template c)) in
  match first_line with
  | "" => "Custom command"
  | _ => "Custom: " ++ first_line ++ "..."
  end.

Definition render (c : CustomCommand) (arguments : string) : string :=
  Str.replace "$ARGUMENTS" arguments (template c).

(** The directory behind [COMMAND_DIR.path]: [None] when it is not a
    directory, otherwise the files matched by [glob("*.md")] in the order
    the glob yields them, each with its stem and what [read_text] does. *)
Inductive read_result : Type :=
| Text (content : string)
| Unreadable.

Record md_file : Type := {
  stem : string;
  read_text : read_result
}.

Definition command_dir : Type := option (list md_file).

#[global] Instance Command_eq_dec : EqDecision Command.
Proof. solve_decision. Defined.

#[global] Instance CustomCommand_eq_dec : EqDecision CustomCommand.
Proof. solve_decision. Defined.

#[global] Instance read_result_eq_dec : EqDecision read_result.
Proof. solve_decision. Defined.

Record CommandRegistry : Type := {
  commands : Dict.t Command;
  _alias_map : gmap string string;
  custom_commands : Dict.t CustomCommand
}.

(** The dictionary literal of [__init__]. *)
Definition builtin_commands : Dict.t Command := [
  ("help", {| aliases := ["/help"];
              description := "Show help message";
              handler := "_show_help"; exits := false |});
  ("config", {| aliases := ["/config"; "/theme"; "/model"];
                description := "Edit config settings";
                handler := "_show_config"; exits := false |});
  ("reload", {| aliases := ["/reload"];
                description := "Reload configuration from disk";
                handler := "_reload_config"; exits := false |});
  ("clear", {| aliases := ["/clear"];
               description := "Clear conversation history";
               handler := "_clear_history"; exits := false |});
  ("log", {| aliases := ["/log"];
             description := "Show path to current interaction log file";
             handler := "_show_log_path"; exits := false |});
  ("compact", {| aliases := ["/compact"];
                 description := "Compact conversation history by summarizing";
                 handler := "_compact_history"; exits := false |});
  ("exit", {| aliases := ["/exit"];
              description := "Exit the application";
              handler := "_exit_app"; exits := true |});
  ("terminal-setup", {| aliases := ["/terminal-setup"];
                        description := "Configure Shift+Enter for newlines";
                        handler := "_setup_terminal"; exits := false |});
  ("status", {| aliases := ["/status"];
                description := "Display agent statistics";
                handler := "_show_status"; exits := false |})
].

(** ** Construction *)

(** [for command in excluded_commands: self.commands.pop(command, None)] *)
Definition exclude (excluded_commands : list string) (cmds : Dict.t Command)
  : Dict.t Command :=
  foldl (fun d k => Dict.pop k d) cmds excluded_commands.

(** The alias loops.  A frozenset is iterated in an order Python does not
    fix; [iter] is that order. *)
Definition derive_alias_map (iter : list string -> list string)
    (cmds : Dict.t Command) : gmap string string :=
  foldl (fun m kc =>
           foldl (fun m' alias => <[alias := fst kc]> m') m (iter (aliases (snd kc))))
        ∅ cmds.

(** The loop body of [_load_custom_commands], over the files still to visit. *)
Fixpoint load_files (alias_map : gmap string string) (files : list md_file)
    (custom : Dict.t CustomCommand) : result (Dict.t CustomCommand) :=
  match files with
  | [] => Ok custom
  | cmd_file :: rest =>
      let name := stem cmd_file in
      if Str.startswith "_" name then load_files alias_map rest custom
      else if decide (is_Some (alias_map !! ("/" ++ name)))
      then load_files alias_map rest custom
      else
        match read_text cmd_file with
        | Unreadable => Raise (ReadError name)
        | Text template =>
            load_files alias_map rest
              (Dict.set name {| name := name; template := template |} custom)
        end
  end.

Definition _load_custom_commands (alias_map : gmap string string)
    (dir : command_dir) (custom : Dict.t CustomCommand)
  : result (Dict.t CustomCommand) :=
  match dir with
  | None => Ok custom
  | Some files => load_files alias_map files custom
  end.

(** [CommandRegistry.__init__], with the frozenset iteration order and the
    directory explicit. *)
Definition init_with (iter : list string -> list string)
    (excluded_commands : option (list string)) (dir : command_dir)
  : result CommandRegistry :=
  let excluded := match excluded_commands with None => [] | Some l => l end in
  let cmds := exclude excluded builtin_commands in
  let alias_map := derive_alias_map iter cmds in
  custom ← _load_custom_commands alias_map dir [];
  mret {| commands := cmds; _alias_map := alias_map; custom_commands := custom |}.

(** Construction with the aliases visited as the literals list them. *)
Definition __init__ := init_with (fun l => l).

(** ** Resolution *)

Definition find_command (r : CommandRegistry) (user_input : string)
  : option Command :=
  match _alias_map r !! Str.strip (Str.lower user_input) with
  | Some cmd_name =>
      match cmd_name with
      | "" => None
      | _ => Dict.get cmd_name (commands r)
      end
  | None => None
  end.

Inductive resolved : Type :=
| Builtin (c : Command)
| Custom (c : CustomCommand).

Definition find_command_with_args (r : CommandRegistry) (user_input : string)
  : result (option resolved * string) :=
  let parts := Str.split1 (Str.strip user_input) in
  let cmd_str := match parts with p :: _ => Str.lower p | [] => "" end in
  let args := match parts with _ :: a :: _ => a | _ => "" end in
  let custom_lookup :=
    if Str.startswith "/" cmd_str then
      match Dict.get (Str.tail cmd_str) (custom_commands r) with
      | Some custom_cmd => Ok (Some (Custom custom_cmd), args)
      | None => Ok (None, "")
      end
    else Ok (None, "") in
  match _alias_map r !! cmd_str with
  | Some (String _ _ as cmd_name) =>
      match Dict.get cmd_name (commands r) with
      | Some c => Ok (Some (Builtin c), args)
      | None => Raise (KeyError cmd_name)
      end
  | _ => custom_lookup
  end.

(** ** Help text *)

Definition help_preamble : list string := [
  "### Keyboard Shortcuts";
  "";
  "- `Enter` Submit message";
  "- `Ctrl+J` / `Shift+Enter` Insert newline";
  "- `Escape` Interrupt agent or close dialogs";
  "- `Ctrl+C` Quit (or clear input if text present)";
  "- `Ctrl+O` Toggle tool output view";
  "- `Ctrl+T` Toggle todo view";
  "- `Shift+Tab` Toggle auto-approve mode";
  "";
  "### Special Features";
  "";
  "- `!<command>` Execute bash command directly";
  "- `@path/to/file/` Autocompletes file paths";
  "";
  "### Commands";
  ""
].

Definition command_line (cmd : Command) : string :=
  let aliases := Str.join ", " ((fun alias => "`" ++ alias ++ "`") <$>
                                  Str.sorted (aliases cmd)) in
  "- " ++ aliases ++ ": " ++ description cmd.

Definition custom_line (cmd : CustomCommand) : string :=
  "- `/" ++ name cmd ++ "`: " ++ custom_description cmd.

(** [lines] grows by [append]; the text is the lines joined by newlines. *)
Definition help_lines (r : CommandRegistry) : list string :=
  let lines := help_preamble in
  let lines :=
    foldl (fun acc cmd => acc ++ [command_line cmd])%list lines
          (Dict.values (commands r)) in
  match custom_commands r with
  | [] => lines
  | _ :: _ =>
      let lines := (lines ++ [""])%list in
      let lines := (lines ++ ["### Custom Commands"])%list in
      let lines := (lines ++ [""])%list in
      foldl (fun acc cmd => acc ++ [custom_line cmd])%list lines
            (Dict.values (custom_commands r))
  end.

Definition get_help_text (r : CommandRegistry) : string :=
  Str.join (String "010" "") (help_lines r).

Definition sample_dir : command_dir :=
  Some [ {| stem := "review"; read_text := Text "Review $ARGUMENTS please" |};
         {| stem := "help"; read_text := Text "shadowed" |};
         {| stem := "_draft"; read_text := Unreadable |};
         {| stem := "Deploy"; read_text := Text "Deploy it" |} ].

(** ** Specification-side notions *)

(** A frozenset iteration order visits each element once. *)
Definition iter_ok (iter : list string -> list string) : Prop :=
  forall l, iter l ≡ₚ l.

(** The key an alias points to: the last command of the dictionary that
    lists it. *)
Fixpoint owner (alias : string) (cmds : Dict.t Command) : option string :=
  match cmds with
  | [] => None
  | (k, c) :: rest =>
      match owner alias rest with
      | Some k' => Some k'
      | None => if decide (alias ∈ aliases c) then Some k else None
      end
  end.

(** A built-in survives when its key is not in the exclusion list. *)
Definition excluded_keys (excluded_commands : option (list string)) : list string :=
  match excluded_commands with
  | None => []
  | Some l => l
  end.

Definition surviving (excluded_commands : option (list string)) : Dict.t Command :=
  filter (fun kc => kc.1 ∉ excluded_keys excluded_commands) builtin_commands.

(** Every alias of the catalog. *)
Definition builtin_aliases : list string :=
  mjoin (aliases <$> Dict.values builtin_commands).

(** Trimming and lowercasing the whole input. *)
Definition normalize (user_input : string) : string :=
  Str.lower (Str.strip user_input).

(** The registry of a session without exclusions and without a command
    directory, and one over [sample_dir]. *)
Definition default_registry : CommandRegistry :=
  {| commands := builtin_commands;
     _alias_map := derive_alias_map (fun l => l) builtin_commands;
     custom_commands := [] |}.

Definition sample_registry : CommandRegistry :=
  {| commands := builtin_commands;
     _alias_map := derive_alias_map (fun l => l) builtin_commands;
     custom_commands :=
       [("review", {| name := "review"; template := "Review $ARGUMENTS please" |});
        ("Deploy", {| name := "Deploy"; template := "Deploy it" |})] |}.

Definition config_command : Command :=
  {| aliases := ["/config"; "/theme"; "/model"];
     description := "Edit config settings";
     handler := "_show_config"; exits := false |}.

Definition help_command : Command :=
  {| aliases := ["/help"];
     description := "Show help message";
     handler := "_show_help"; exits := false |}.

(** Splitting at the first run of whitespace: [splits s tok args] reads
    "[s] has command token [tok] and argument string [args]".  Without
    whitespace there is no split and the argument string is empty. *)
Fixpoint all_chars (p : ascii -> bool) (s : string) : bool :=
  match s with
  | "" => true
  | String c s' => p c && all_chars p s'
  end.

Definition no_space (s : string) : Prop :=
  all_chars (fun c => negb (Str.isspace c)) s = true.

Definition all_space (s : string) : Prop :=
  all_chars Str.isspace s = true.

Inductive splits : string -> string -> string -> Prop :=
| splits_none tok :
    no_space tok -> splits tok tok ""
| splits_run tok ws rest :
    tok <> "" -> no_space tok ->
    ws <> "" -> all_space ws ->
    Str.lstrip rest = rest ->
    splits (tok ++ ws ++ rest) tok rest.

(** The leading run of whitespace of [s]. *)
Fixpoint take_space (s : string) : string :=
  match s with
  | "" => ""
  | String c s' => if Str.isspace c then String c (take_space s') else ""
  end.

(** The token and the argument string [find_command_with_args] works with. *)
Definition command_token (user_input : string) : string :=
  match Str.split1 (Str.strip user_input) with
  | p :: _ => p
  | [] => ""
  end.

Definition argument_string (user_input : string) : string :=
  match Str.split1 (Str.strip user_input) with
  | _ :: a :: _ => a
  | _ => ""
  end.

(** Custom-command discovery: the files the scan passes over, and the
    entry a file contributes when it is read. *)
Definition skipped (alias_map : gmap string string) (f : md_file) : bool :=
  Str.startswith "_" (stem f)
  || bool_decide (is_Some (alias_map !! ("/" ++ stem f))).

Definition content (f : md_file) : string :=
  match read_text f with
  | Text t => t
  | Unreadable => ""
  end.

Definition entry (f : md_file) : string * CustomCommand :=
  (stem f, {| name := stem f; template := content f |}).

(** A file is eligible when its stem neither starts with an underscore
    nor, behind a slash, is an alias of a surviving built-in. *)
Definition conflicts (excluded_commands : option (list string)) (f : md_file)
  : Prop :=
  exists k c, (k, c) ∈ surviving excluded_commands /\ "/" ++ stem f ∈ aliases c.

Definition eligible (excluded_commands : option (list string)) (f : md_file)
  : Prop :=
  Str.startswith "_" (stem f) = false /\ ~ conflicts excluded_commands f.

(** A session that excludes ["exit"] (and a key naming nothing) and finds
    an [exit.md] in its command directory. *)
Definition exit_dir : command_dir :=
  Some [ {| stem := "exit"; read_text := Text "Say goodbye to $ARGUMENTS" |} ].

Definition exit_registry : CommandRegistry :=
  {| commands := exclude ["exit"; "nope"] builtin_commands;
     _alias_map :=
       derive_alias_map (fun l => l) (exclude ["exit"; "nope"] builtin_commands);
     custom_commands :=
       [("exit", {| name := "exit"; template := "Say goodbye to $ARGUMENTS" |})] |}.

Definition exit_command : Command :=
  {| aliases := ["/exit"];
     description := "Exit the application";
     handler := "_exit_app"; exits := true |}.

(** Occurrences of a pattern, and strings without the character [d]. *)
Definition occurs (old s : string) : Prop :=
  exists a b, s = a ++ old ++ b.

Definition free_of (d : ascii) (s : string) : Prop :=
  all_chars (fun c => negb (Ascii.eqb c d)) s = true.

Definition ARGUMENTS : string := "$ARGUMENTS".

(** [old in s] *)
Fixpoint occursb (old s : string) : bool :=
  Str.startswith old s
  || match s with
     | "" => false
     | String _ s' => occursb old s'
     end.

(** The layout of the help text, in the words of its description: the
    preamble, one line per built-in, and a section for the custom commands
    when there are any. *)
Definition quote (alias : string) : string := "`" ++ alias ++ "`".

Definition custom_section (custom : Dict.t CustomCommand) : list string :=
  match custom with
  | [] => []
  | _ => "" :: "### Custom Commands" :: "" ::
         ((fun c => "- `/" ++ name c ++ "`: " ++ custom_description c)
            <$> Dict.values custom)
  end.

Definition help_layout (builtins : Dict.t Command)
    (custom : Dict.t CustomCommand) : list string :=
  (help_preamble ++ (command_line <$> Dict.values builtins)
   ++ custom_section custom)%list.

Definition newline : string := String "010" "".

(** Two constructions agree when both fail, or both succeed with the same
    alias index and the same answer to every resolution request. *)
Definition agree (a b : result CommandRegistry) : Prop :=
  match a, b with
  | Ok r1, Ok r2 =>
      _alias_map r1 = _alias_map r2
      /\ forall user_input,
          find_command r1 user_input = find_command r2 user_input
          /\ find_command_with_args r1 user_input
             = find_command_with_args r2 user_input
  | Raise _, Raise _ => True
  | _, _ => False
  end.

(** A directory in which two files share a stem, and its registry. *)
Definition note_dir : command_dir :=
  Some [ {| stem := "note"; read_text := Text "first" |};
         {| stem := "note"; read_text := Text "second" |} ].

Definition note_registry : CommandRegistry :=
  {| commands := builtin_commands;
     _alias_map := derive_alias_map (fun l => l) builtin_commands;
     custom_commands := [("note", {| name := "note"; template := "second" |})] |}.

(** The text of the help, read back line by line: [text.split("\n")],
    written as a scan of the text. *)
Fixpoint split_lines (s : string) : list string :=
  match s with
  | "" => [""]
  | String c s' =>
      if ascii_dec c "010" then "" :: split_lines s'
      else match split_lines s' with
           | [] => [String c ""]
           | l :: ls => String c l :: ls
           end
  end.

(** The aliases of a help line as text: each between backticks, a comma and
    a space before every alias but the first. *)
Fixpoint comma_tail (l : list string) : string :=
  match l with
  | [] => ""
  | a :: l' => ", `" ++ a ++ "`" ++ comma_tail l'
  end.

Definition alias_text (l : list string) : string :=
  match l with
  | [] => ""
  | a :: l' => "`" ++ a ++ "`" ++ comma_tail l'
  end.

(** The line of a built-in, given its aliases in the order to show. *)
Definition builtin_help_line (shown : list string) (c : Command) : string :=
  "- " ++ alias_text shown ++ ": " ++ description c.

(** * Properties *)

(** ** Characters and strings *)

Example strip_ex : Str.strip "  /Help  x " = "/Help  x".
Proof. reflexivity. Qed.
Example split1_ex : Str.split1 "/config   dark  mode " = ["/config"; "dark  mode "].
Proof. reflexivity. Qed.
Example replace_ex : Str.replace "$ARGUMENTS" "PR#1" "Review $ARGUMENTS please" = "Review PR#1 please".
Proof. reflexivity. Qed.
Example sorted_ex : Str.sorted ["/config"; "/theme"; "/model"] = ["/config"; "/model"; "/theme"].
Proof. reflexivity. Qed.

Section StrFacts.
Import Str.

Lemma str_app_cons c (s t : string) : String c s ++ t = String c (s ++ t).
Proof. reflexivity. Qed.

Lemma str_app_nil_r (s : string) : s ++ "" = s.
Proof. induction s as [|c s IH]; [done|]. by rewrite str_app_cons, IH. Qed.

Lemma str_app_assoc (s t u : string) : (s ++ t) ++ u = s ++ t ++ u.
Proof. induction s as [|c s IH]; [done|]. by rewrite !str_app_cons, IH. Qed.

Lemma lower_char_idem c : lower_char (lower_char c) = lower_char c.
Proof. by destruct c as [[] [] [] [] [] [] [] []]. Qed.

Lemma isspace_lower_char c : isspace (lower_char c) = isspace c.
Proof. by destruct c as [[] [] [] [] [] [] [] []]. Qed.



Lemma lower_idem s : lower (lower s) = lower s.
Proof. induction s as [|c s IH]; simpl; [done|]. by rewrite lower_char_idem, IH. Qed.


Lemma lower_lstrip s : lower (lstrip s) = lstrip (lower s).
Proof.
  induction s as [|c s IH]; simpl; [done|].
  rewrite isspace_lower_char. by destruct (isspace c).
Qed.

Lemma lower_rstrip s : lower (rstrip s) = rstrip (lower s).
Proof.
  induction s as [|c s IH]; simpl; [done|].
  rewrite <- IH, isspace_lower_char.
  destruct (rstrip s) as [|d r]; simpl; [by destruct (isspace c)|done].
Qed.

(** Trimming and lowercasing commute: [find_command] lowercases first,
    the description of it trims first. *)
Lemma lower_strip s : lower (strip s) = strip (lower s).
Proof. unfold strip. by rewrite lower_rstrip, lower_lstrip. Qed.



Lemma startswith_app p s : startswith p (p ++ s) = true.
Proof. induction p as [|c p IH]; simpl; [done|]. by destruct (ascii_dec c c). Qed.

Lemma startswith_spec p s : startswith p s = true ↔ ∃ t, s = p ++ t.
Proof.
  revert s. induction p as [|c p IH]; intros s; simpl.
  - split; [by exists s|done].
  - destruct s as [|d s]; [split; [done|by intros [t [=]]]|].
    destruct (ascii_dec c d) as [->|Hne].
    + rewrite IH. split; intros [t Ht]; exists t; [by rewrite Ht|by injection Ht].
    + split; [done|]. intros [t [= -> _]]. done.
Qed.

End StrFacts.

(** ** Dictionaries *)

Section DictFacts.
Context {V : Type}.
Implicit Types (d : Dict.t V) (k : string) (v : V).

Lemma get_elem_of k v d : Dict.get k d = Some v → (k, v) ∈ d.
Proof.
  induction d as [|[k' v'] d IH]; simpl; [done|].
  case_decide as Hk; [intros [= ->]; subst; left|right; auto].
Qed.

Lemma get_None k d : Dict.get k d = None ↔ k ∉ Dict.keys d.
Proof.
  induction d as [|[k' v'] d IH]; simpl.
  - split; [intros _; apply not_elem_of_nil|done].
  - rewrite not_elem_of_cons. case_decide; [|by rewrite IH; intuition].
    split; [done|by intros []].
Qed.

Lemma get_Some k v d : NoDup (Dict.keys d) → (k, v) ∈ d → Dict.get k d = Some v.
Proof.
  induction d as [|[k' v'] d IH]; simpl; [by intros _ ?%elem_of_nil|].
  intros [Hk' Hd]%NoDup_cons [[= -> ->]|Hin]%elem_of_cons.
  - by case_decide.
  - case_decide as Hk; [|by auto]. subst. destruct Hk'.
    apply list_elem_of_fmap. by exists (k', v).
Qed.

Lemma keys_filter_NoDup (P : string * V → Prop) `{!∀ x, Decision (P x)} d :
  NoDup (Dict.keys d) → NoDup (Dict.keys (filter P d)).
Proof.
  intros Hd.
  eapply sublist_NoDup; [exact Hd|]. apply fmap_sublist, sublist_filter.
Qed.

Lemma pop_filter k d :
  NoDup (Dict.keys d) → Dict.pop k d = filter (λ kv, kv.1 ≠ k) d.
Proof.
  induction d as [|[k' v'] d IH]; simpl; [done|].
  intros [Hk' Hd]%NoDup_cons. rewrite filter_cons. simpl.
  case_decide as Hk; subst.
  - rewrite decide_False by (intros H; by apply H).
    clear IH Hd. induction d as [|[k v] d IH]; [done|].
    simpl in Hk'. apply not_elem_of_cons in Hk' as [Hne Hk'].
    rewrite filter_cons_True by (simpl; congruence). by rewrite <- IH.
  - rewrite decide_True by congruence. by rewrite IH.
Qed.
End DictFacts.

(** ** Exclusion and the alias index *)

Lemma builtin_keys_NoDup : NoDup (Dict.keys builtin_commands).
Proof. apply (bool_decide_unpack _). by vm_compute. Qed.

Lemma exclude_filter excluded (d : Dict.t Command) :
  NoDup (Dict.keys d) → exclude excluded d = filter (λ kc, kc.1 ∉ excluded) d.
Proof.
  unfold exclude. revert d.
  induction excluded as [|k ex IH]; intros d Hd; simpl.
  - symmetry. induction d as [|kc d IHd]; [done|].
    rewrite filter_cons_True by apply not_elem_of_nil.
    f_equal. apply IHd. by apply NoDup_cons in Hd as [_ ?].
  - rewrite pop_filter by done. rewrite IH by (by apply keys_filter_NoDup).
    rewrite list_filter_filter. apply list_filter_iff.
    intros [k' c]. simpl. rewrite not_elem_of_cons. tauto.
Qed.

Lemma exclude_surviving excluded_commands :
  exclude (excluded_keys excluded_commands) builtin_commands
  = surviving excluded_commands.
Proof. apply exclude_filter, builtin_keys_NoDup. Qed.

Lemma surviving_keys_NoDup excluded_commands :
  NoDup (Dict.keys (surviving excluded_commands)).
Proof. apply keys_filter_NoDup, builtin_keys_NoDup. Qed.

Lemma elem_of_surviving excluded_commands k c :
  (k, c) ∈ surviving excluded_commands
  ↔ (k ∉ excluded_keys excluded_commands) ∧ (k, c) ∈ builtin_commands.
Proof. unfold surviving. by rewrite list_elem_of_filter. Qed.

Lemma insert_aliases_lookup (m : gmap string string) (l : list string) k a :
  foldl (λ m' alias, <[alias := k]> m') m l !! a
  = if decide (a ∈ l) then Some k else m !! a.
Proof.
  revert m. induction l as [|b l IH]; intros m; cbn [foldl].
  - case_decide as Hin; [by apply elem_of_nil in Hin|done].
  - rewrite IH. destruct (decide (a ∈ l)) as [Hin|Hnin].
    + rewrite decide_True; [done|by right].
    + destruct (decide (a = b)) as [->|Hne].
      * rewrite decide_True; [apply lookup_insert_eq|by left].
      * rewrite decide_False; [by apply lookup_insert_ne|].
        rewrite not_elem_of_cons; tauto.
Qed.

Lemma derive_from_lookup iter (m : gmap string string) cmds a :
  iter_ok iter →
  foldl (λ m kc,
           foldl (λ m' alias, <[alias := kc.1]> m') m (iter (aliases kc.2)))
        m cmds !! a
  = match owner a cmds with
    | Some k => Some k
    | None => m !! a
    end.
Proof.
  intros Hiter. revert m.
  induction cmds as [|[k c] cmds IH]; intros m; cbn [foldl owner]; [done|].
  rewrite IH. destruct (owner a cmds); [done|].
  rewrite insert_aliases_lookup. cbn [fst snd].
  destruct (decide (a ∈ aliases c)) as [Hin|Hnin].
  - rewrite decide_True; [done|by rewrite (Hiter _)].
  - rewrite decide_False; [done|by rewrite (Hiter _)].
Qed.

(** The alias index sends an alias to its owner, whatever the iteration
    order of the alias sets. *)
Lemma derive_alias_map_lookup iter cmds a :
  iter_ok iter → derive_alias_map iter cmds !! a = owner a cmds.
Proof.
  intros Hiter. unfold derive_alias_map. rewrite derive_from_lookup by done.
  by destruct (owner a cmds).
Qed.

Lemma derive_alias_map_iter iter1 iter2 cmds :
  iter_ok iter1 → iter_ok iter2 →
  derive_alias_map iter1 cmds = derive_alias_map iter2 cmds.
Proof.
  intros H1 H2. apply map_eq. intros a.
  by rewrite !derive_alias_map_lookup.
Qed.

Lemma iter_ok_id : iter_ok (λ l, l).
Proof. by intros l. Qed.

Lemma owner_Some a cmds k :
  owner a cmds = Some k → ∃ c, (k, c) ∈ cmds ∧ a ∈ aliases c.
Proof.
  induction cmds as [|[k' c'] cmds IH]; simpl; [done|].
  destruct (owner a cmds) as [k''|].
  - intros [= ->]. destruct IH as (c & ? & ?); [done|]. exists c. split; [by right|done].
  - case_decide; [|done]. intros [= ->]. exists c'. split; [by left|done].
Qed.

Lemma owner_None a cmds :
  owner a cmds = None ↔ ∀ k c, (k, c) ∈ cmds → a ∉ aliases c.
Proof.
  induction cmds as [|[k' c'] cmds IH]; simpl.
  - split; [by intros _ ?? ?%elem_of_nil|done].
  - destruct (owner a cmds) as [k''|].
    + split; [done|]. intros H. assert (Some k'' = None) as [=].
      apply IH. intros k c Hin. apply (H k c). by right.
    + case_decide as Hin.
      * split; [done|]. intros H. destruct (H k' c'); [by left|done].
      * split; [|done]. intros _ k c [[= -> ->]|Hkc]%elem_of_cons; [done|].
        destruct IH as [IH _]. by apply (IH eq_refl k c).
Qed.

(** No two built-in commands share an alias. *)
Lemma builtin_aliases_NoDup : NoDup builtin_aliases.
Proof. apply (bool_decide_unpack _). by vm_compute. Qed.

Lemma elem_of_builtin_aliases k c a :
  (k, c) ∈ builtin_commands → a ∈ aliases c → a ∈ builtin_aliases.
Proof.
  intros Hkc Ha. unfold builtin_aliases. apply list_elem_of_join.
  exists (aliases c). split; [done|].
  apply list_elem_of_fmap. exists c. split; [done|].
  apply list_elem_of_fmap. by exists (k, c).
Qed.

Lemma builtin_alias_unique k c k' c' a :
  (k, c) ∈ builtin_commands → (k', c') ∈ builtin_commands →
  a ∈ aliases c → a ∈ aliases c' → k = k' ∧ c = c'.
Proof.
  assert (Forall (λ kc, Forall (λ kc' : string * Command,
            Forall (λ a, a ∈ aliases kc'.2 → kc = kc') (aliases kc.2))
            builtin_commands) builtin_commands) as Hall.
  { apply (bool_decide_unpack _). by vm_compute. }
  intros Hkc Hkc' Ha Ha'.
  rewrite Forall_forall in Hall. specialize (Hall _ Hkc).
  rewrite Forall_forall in Hall. specialize (Hall _ Hkc').
  rewrite Forall_forall in Hall. specialize (Hall _ Ha Ha').
  by injection Hall.
Qed.

(** Aliases of the catalog are already in normal form, and are a single
    token that starts with a slash followed by no underscore. *)
Lemma builtin_alias_shape a :
  a ∈ builtin_aliases →
  Str.strip (Str.lower a) = a ∧ Str.lower a = a ∧ Str.strip a = a
  ∧ Str.split1 a = [a]
  ∧ ∃ n, a = "/" ++ n ∧ Str.startswith "_" n = false.
Proof.
  assert (Forall (λ a, Str.strip (Str.lower a) = a ∧ Str.lower a = a
                       ∧ Str.strip a = a ∧ Str.split1 a = [a]
                       ∧ a = "/" ++ Str.tail a
                       ∧ Str.startswith "_" (Str.tail a) = false)
                 builtin_aliases) as Hall.
  { repeat constructor. }
  rewrite Forall_forall in Hall. intros Ha.
  destruct (Hall _ Ha) as (? & ? & ? & ? & ? & ?).
  repeat split; try done. by exists (Str.tail a).
Qed.

(** The index over the surviving built-ins: an alias points to the key of
    the one command that lists it. *)
Lemma index_Some iter excluded_commands a k :
  iter_ok iter →
  derive_alias_map iter (surviving excluded_commands) !! a = Some k
  ↔ ∃ c, (k, c) ∈ surviving excluded_commands ∧ a ∈ aliases c.
Proof.
  intros Hiter. rewrite derive_alias_map_lookup by done. split.
  - apply owner_Some.
  - intros (c & Hkc & Ha).
    destruct (owner a (surviving excluded_commands)) as [k'|] eqn:Ho.
    + apply owner_Some in Ho as (c' & Hkc' & Ha'). f_equal.
      apply elem_of_surviving in Hkc as [_ Hkc].
      apply elem_of_surviving in Hkc' as [_ Hkc'].
      by destruct (builtin_alias_unique _ _ _ _ _ Hkc' Hkc Ha' Ha).
    + rewrite owner_None in Ho. by destruct (Ho k c).
Qed.

Lemma skipped_index iter excluded_commands f :
  iter_ok iter →
  skipped (derive_alias_map iter (surviving excluded_commands)) f = false
  ↔ eligible excluded_commands f.
Proof.
  intros Hiter. unfold skipped, eligible, conflicts.
  rewrite orb_false_iff, bool_decide_eq_false.
  assert (is_Some (derive_alias_map iter (surviving excluded_commands)
                     !! ("/" ++ stem f))
          ↔ ∃ k c, (k, c) ∈ surviving excluded_commands
                   ∧ "/" ++ stem f ∈ aliases c) as ->; [|done].
  split.
  - intros [k Hk]. exists k. by apply (index_Some iter).
  - intros (k & Hk). exists k. by apply (index_Some iter).
Qed.

Lemma init_with_surviving iter excluded_commands dir :
  init_with iter excluded_commands dir
  = (custom ← _load_custom_commands
                (derive_alias_map iter (surviving excluded_commands)) dir [];
     mret {| commands := surviving excluded_commands;
             _alias_map := derive_alias_map iter (surviving excluded_commands);
             custom_commands := custom |}).
Proof. unfold init_with. by rewrite <- exclude_surviving. Qed.

Section Registry.
Variables (iter : list string → list string).
Variables (excluded_commands : option (list string)) (dir : command_dir).
Variable r : CommandRegistry.
Hypothesis Hiter : iter_ok iter.
Hypothesis Hinit : init_with iter excluded_commands dir = Ok r.

Lemma init_commands : commands r = surviving excluded_commands.
Proof using Hinit.
  rewrite init_with_surviving in Hinit.
  destruct (_load_custom_commands _ _ _); simpl in Hinit; [|done].
  by injection Hinit as <-.
Qed.

Lemma init_alias_map :
  _alias_map r = derive_alias_map iter (surviving excluded_commands).
Proof using Hinit.
  rewrite init_with_surviving in Hinit.
  destruct (_load_custom_commands _ _ _); simpl in Hinit; [|done].
  by injection Hinit as <-.
Qed.

Lemma init_custom_commands :
  _load_custom_commands (_alias_map r) dir [] = Ok (custom_commands r).
Proof using Hinit.
  rewrite init_with_surviving in Hinit.
  destruct (_load_custom_commands _ _ _) eqn:Hload; simpl in Hinit; [|done].
  injection Hinit as <-. by simpl.
Qed.

Lemma alias_map_Some a k :
  _alias_map r !! a = Some k
  ↔ ∃ c, (k, c) ∈ surviving excluded_commands ∧ a ∈ aliases c.
Proof using Hinit Hiter.
  rewrite init_alias_map. by apply index_Some.
Qed.

Lemma alias_map_None a :
  _alias_map r !! a = None
  ↔ ∀ k c, (k, c) ∈ surviving excluded_commands → a ∉ aliases c.
Proof using Hinit Hiter.
  rewrite init_alias_map, derive_alias_map_lookup by done. apply owner_None.
Qed.

Lemma alias_map_key_nonempty a k : _alias_map r !! a = Some k → k ≠ "".
Proof using Hinit Hiter.
  intros (c & Hkc & _)%alias_map_Some.
  apply elem_of_surviving in Hkc as [_ Hkc].
  assert (Forall (λ kc : string * Command, kc.1 ≠ "") builtin_commands) as Hall
    by (by repeat constructor).
  rewrite Forall_forall in Hall. apply (Hall _ Hkc).
Qed.

Lemma commands_get k c :
  (k, c) ∈ surviving excluded_commands → Dict.get k (commands r) = Some c.
Proof using Hinit.
  rewrite init_commands. apply get_Some, surviving_keys_NoDup.
Qed.

Lemma alias_map_builtin a k :
  _alias_map r !! a = Some k → a ∈ builtin_aliases.
Proof using Hinit Hiter.
  intros (c & [_ Hkc]%elem_of_surviving & Ha)%alias_map_Some.
  by eapply elem_of_builtin_aliases.
Qed.

End Registry.

Lemma init_default : __init__ None None = Ok default_registry.
Proof. by vm_compute. Qed.

Lemma init_sample : __init__ None sample_dir = Ok sample_registry.
Proof. by vm_compute. Qed.

(** ** Resolution of bare commands *)

(** C1: every alias of a built-in command that survives the exclusion step
    resolves through [find_command] to exactly that command, also when the
    input only equals the alias after trimming and lowercasing; an input
    whose normal form is no alias of a surviving built-in resolves to
    nothing. *)
Theorem find_command_resolves_aliases excluded_commands dir r :
  __init__ excluded_commands dir = Ok r →
  (∀ k c a user_input,
      (k, c) ∈ builtin_commands → k ∉ excluded_keys excluded_commands →
      a ∈ aliases c → normalize user_input = a →
      find_command r a = Some c ∧ find_command r user_input = Some c)
  ∧ (∀ user_input,
      (∀ k c, (k, c) ∈ builtin_commands →
              k ∉ excluded_keys excluded_commands →
              normalize user_input ∉ aliases c) →
      find_command r user_input = None).
Proof.
  intros Hinit.
  assert (∀ k c a u, (k, c) ∈ surviving excluded_commands → a ∈ aliases c →
            Str.strip (Str.lower u) = a → find_command r u = Some c) as Hhit.
  { intros k c a u Hkc Ha Hu. unfold find_command. rewrite Hu.
    assert (_alias_map r !! a = Some k) as Hk.
    { eapply alias_map_Some; eauto using iter_ok_id. }
    rewrite Hk.
    pose proof (alias_map_key_nonempty _ _ _ _ iter_ok_id Hinit _ _ Hk).
    destruct k; [done|]. by eapply commands_get. }
  split.
  - intros k c a u Hkc Hk Ha Hu.
    assert ((k, c) ∈ surviving excluded_commands) as Hs
      by by apply elem_of_surviving.
    split; eapply Hhit; eauto.
    + eapply builtin_alias_shape, elem_of_builtin_aliases; eauto.
    + by rewrite <- lower_strip.
  - intros u Hno. unfold find_command.
    assert (_alias_map r !! Str.strip (Str.lower u) = None) as ->; [|done].
    eapply alias_map_None; eauto using iter_ok_id.
    intros k c [Hk Hkc]%elem_of_surviving.
    rewrite <- lower_strip. by apply (Hno k c).
Qed.

Lemma find_command_resolves_aliases_witness :
  find_command default_registry "/theme" = Some config_command
  ∧ find_command default_registry "  /THEME  " = Some config_command.
Proof.
  apply (proj1 (find_command_resolves_aliases None None default_registry
                  init_default) "config" config_command "/theme" "  /THEME  ").
  - repeat constructor.
  - apply not_elem_of_nil.
  - repeat constructor.
  - reflexivity.
Defined.

(** ** Splitting the input line *)

Lemma lstrip_no_space tok rest :
  tok ≠ "" → no_space tok → Str.lstrip (tok ++ rest) = tok ++ rest.
Proof.
  destruct tok as [|c tok]; [done|]. unfold no_space. simpl.
  intros _ [Hc _]%andb_true_iff. by destruct (Str.isspace c).
Qed.

Lemma lstrip_all_space ws rest :
  all_space ws → Str.lstrip (ws ++ rest) = Str.lstrip rest.
Proof.
  unfold all_space. induction ws as [|c ws IH]; simpl; [done|].
  intros [-> ?]%andb_true_iff. auto.
Qed.

Lemma take_word_no_space tok ws rest :
  no_space tok → ws ≠ "" → all_space ws →
  Str.take_word (tok ++ ws ++ rest) = tok
  ∧ Str.drop_word (tok ++ ws ++ rest) = ws ++ rest.
Proof.
  unfold no_space, all_space. intros Htok Hne Hws.
  induction tok as [|c tok IH]; simpl in *.
  - destruct ws as [|d ws]; [done|]. simpl in *.
    apply andb_true_iff in Hws as [-> _]. done.
  - apply andb_true_iff in Htok as [Hc Htok].
    destruct (Str.isspace c); [done|].
    destruct (IH Htok) as [-> ->]. done.
Qed.

Lemma take_word_whole tok :
  no_space tok → Str.take_word tok = tok ∧ Str.drop_word tok = "".
Proof.
  unfold no_space. induction tok as [|c tok IH]; simpl; [done|].
  intros [Hc Htok]%andb_true_iff. destruct (Str.isspace c); [done|].
  by destruct (IH Htok) as [-> ->].
Qed.

(** [split1] cuts where the description says: the token is what precedes
    the first run of whitespace, the argument string what follows it. *)
Lemma split1_splits s tok args :
  splits s tok args →
  match Str.split1 s with
  | [] => tok = "" ∧ args = ""
  | [p] => p = tok ∧ args = ""
  | p :: a :: l => p = tok ∧ a = args ∧ l = []
  end.
Proof.
  intros [t Ht|t ws rest Hne Ht Hwne Hws Hrest]; unfold Str.split1.
  - destruct t as [|c t]; [done|].
    pose proof (lstrip_no_space (String c t) "" ltac:(done) Ht) as Hl.
    rewrite str_app_nil_r in Hl. rewrite Hl.
    destruct (take_word_whole _ Ht) as [-> ->]. done.
  - rewrite lstrip_no_space by done.
    destruct t as [|c t]; [done|].
    destruct (take_word_no_space (String c t) ws rest) as [Htw Hdw]; try done.
    rewrite str_app_cons in *. cbv iota. rewrite Htw, Hdw.
    rewrite lstrip_all_space, Hrest by done.
    by destruct rest.
Qed.

Lemma command_token_splits user_input tok args :
  splits (Str.strip user_input) tok args →
  command_token user_input = tok ∧ argument_string user_input = args.
Proof.
  intros Hs%split1_splits. unfold command_token, argument_string.
  destruct (Str.split1 _) as [|p [|a l]]; intuition congruence.
Qed.

Lemma take_drop_word s :
  s = Str.take_word s ++ Str.drop_word s ∧ no_space (Str.take_word s).
Proof.
  unfold no_space. induction s as [|c s [IH1 IH2]]; simpl; [done|].
  destruct (Str.isspace c) eqn:Hc; simpl; [done|].
  rewrite Hc, str_app_cons, <- IH1. done.
Qed.

Lemma take_space_lstrip s :
  s = take_space s ++ Str.lstrip s ∧ all_space (take_space s)
  ∧ Str.lstrip (Str.lstrip s) = Str.lstrip s.
Proof.
  unfold all_space. induction s as [|c s (IH1 & IH2 & IH3)]; simpl; [done|].
  destruct (Str.isspace c) eqn:Hc; simpl; rewrite Hc; [|done].
  rewrite str_app_cons, <- IH1. done.
Qed.

Lemma drop_word_space s :
  Str.drop_word s ≠ "" → take_space (Str.drop_word s) ≠ "".
Proof.
  induction s as [|c s IH]; simpl; [done|].
  destruct (Str.isspace c) eqn:Hc; [|done]. simpl. by rewrite Hc.
Qed.

Lemma lstrip_length s :
  (String.length (Str.lstrip s) ≤ String.length s)%nat.
Proof.
  induction s as [|c s IH]; simpl; [done|].
  destruct (Str.isspace c); simpl; lia.
Qed.

Lemma lstrip_fixed_head c s :
  Str.lstrip (String c s) = String c s → Str.isspace c = false.
Proof.
  simpl. destruct (Str.isspace c); [|done]. intros Hs.
  pose proof (lstrip_length s) as Hl. rewrite Hs in Hl. simpl in Hl. lia.
Qed.

Lemma lstrip_rstrip s :
  Str.lstrip s = s → Str.lstrip (Str.rstrip s) = Str.rstrip s.
Proof.
  destruct s as [|c s]; [done|]. intros Hc%lstrip_fixed_head. simpl.
  destruct (Str.rstrip s); rewrite ?Hc; simpl; by rewrite Hc.
Qed.

Lemma lstrip_strip s : Str.lstrip (Str.strip s) = Str.strip s.
Proof. apply lstrip_rstrip, take_space_lstrip. Qed.

(** Every trimmed input has a token and an argument string. *)
Lemma splits_total s :
  Str.lstrip s = s → ∃ tok args, splits s tok args.
Proof.
  intros Hs. destruct (take_drop_word s) as [Hcat Htok].
  destruct (Str.drop_word s) as [|d rest] eqn:Hd.
  - exists s, "". rewrite str_app_nil_r in Hcat. rewrite <- Hcat in Htok.
    by apply splits_none.
  - destruct (take_space_lstrip (String d rest)) as (Hws & Hall & Hrest).
    assert (take_space (String d rest) ≠ "") as Hne.
    { rewrite <- Hd. apply drop_word_space. by rewrite Hd. }
    remember (take_space (String d rest)) as ws.
    remember (Str.lstrip (String d rest)) as r.
    exists (Str.take_word s), r.
    cut (splits (Str.take_word s ++ ws ++ r) (Str.take_word s) r).
    { by rewrite <- Hws, <- Hcat. }
    constructor; try done.
    destruct s as [|c s]; [done|].
    apply lstrip_fixed_head in Hs. simpl. by rewrite Hs.
Qed.

Lemma splits_strip_total user_input :
  ∃ tok args, splits (Str.strip user_input) tok args.
Proof. apply splits_total, lstrip_strip. Qed.

(** ** Resolution with arguments *)

Lemma find_command_with_args_eq r user_input :
  find_command_with_args r user_input
  = let cmd_str := Str.lower (command_token user_input) in
    let args := argument_string user_input in
    match _alias_map r !! cmd_str with
    | Some (String _ _ as cmd_name) =>
        match Dict.get cmd_name (commands r) with
        | Some c => Ok (Some (Builtin c), args)
        | None => Raise (KeyError cmd_name)
        end
    | _ =>
        if Str.startswith "/" cmd_str then
          match Dict.get (Str.tail cmd_str) (custom_commands r) with
          | Some custom_cmd => Ok (Some (Custom custom_cmd), args)
          | None => Ok (None, "")
          end
        else Ok (None, "")
    end.
Proof.
  unfold find_command_with_args, command_token, argument_string.
  by destruct (Str.split1 _) as [|p [|a l]].
Qed.

Section Resolution.
Variables (excluded_commands : option (list string)) (dir : command_dir).
Variable r : CommandRegistry.
Hypothesis Hinit : __init__ excluded_commands dir = Ok r.

Lemma with_args_builtin user_input k c :
  (k, c) ∈ surviving excluded_commands →
  Str.lower (command_token user_input) ∈ aliases c →
  find_command_with_args r user_input
  = Ok (Some (Builtin c), argument_string user_input).
Proof using Hinit.
  intros Hkc Ha. rewrite find_command_with_args_eq. cbv zeta.
  assert (_alias_map r !! Str.lower (command_token user_input) = Some k) as Hk.
  { eapply alias_map_Some; eauto using iter_ok_id. }
  rewrite Hk.
  pose proof (alias_map_key_nonempty _ _ _ _ iter_ok_id Hinit _ _ Hk).
  destruct k; [done|]. by erewrite commands_get.
Qed.

Lemma with_args_custom user_input :
  _alias_map r !! Str.lower (command_token user_input) = None →
  find_command_with_args r user_input
  = if Str.startswith "/" (Str.lower (command_token user_input)) then
      match Dict.get (Str.tail (Str.lower (command_token user_input)))
                     (custom_commands r) with
      | Some custom_cmd =>
          Ok (Some (Custom custom_cmd), argument_string user_input)
      | None => Ok (None, "")
      end
    else Ok (None, "").
Proof using Hinit.
  intros Hk. rewrite find_command_with_args_eq. cbv zeta. by rewrite Hk.
Qed.

(** On a constructed registry resolution always returns. *)
Lemma with_args_returns user_input :
  ∃ res, find_command_with_args r user_input = Ok res.
Proof using Hinit.
  destruct (_alias_map r !! Str.lower (command_token user_input))
    as [k|] eqn:Hk.
  - pose proof Hk as (c & Hkc & Ha)%(alias_map_Some _ _ _ _ iter_ok_id Hinit).
    erewrite with_args_builtin; eauto.
  - rewrite with_args_custom by done.
    destruct (Str.startswith _ _); [|by eauto].
    destruct (Dict.get _ _); eauto.
Qed.

End Resolution.

(** C2: [find_command_with_args] trims the input and cuts it at the first
    run of whitespace into a token and an argument string; when the
    lowercased token is an alias of a surviving built-in, it returns that
    command with the argument string, untouched in case.  In particular
    ["/config dark"] gives the config command and ["dark"]. *)
Theorem find_command_with_args_builtin excluded_commands dir r :
  __init__ excluded_commands dir = Ok r →
  (∀ user_input, ∃ tok args, splits (Str.strip user_input) tok args)
  ∧ (∀ user_input tok args k c,
      splits (Str.strip user_input) tok args →
      (k, c) ∈ builtin_commands → k ∉ excluded_keys excluded_commands →
      Str.lower tok ∈ aliases c →
      find_command_with_args r user_input = Ok (Some (Builtin c), args))
  ∧ ("config" ∉ excluded_keys excluded_commands →
     find_command_with_args r "/config dark"
     = Ok (Some (Builtin config_command), "dark")).
Proof.
  intros Hinit.
  assert (∀ user_input tok args k c,
      splits (Str.strip user_input) tok args →
      (k, c) ∈ builtin_commands → k ∉ excluded_keys excluded_commands →
      Str.lower tok ∈ aliases c →
      find_command_with_args r user_input = Ok (Some (Builtin c), args)) as H.
  { intros u tok args k c [Htok Hargs]%command_token_splits Hkc Hk Ha.
    rewrite <- Hargs. eapply with_args_builtin; eauto.
    - by apply elem_of_surviving.
    - by rewrite Htok. }
  split; [apply splits_strip_total|]. split; [done|]. intros Hcfg.
  apply (H "/config dark" "/config" "dark" "config" config_command); try done.
  - by apply (splits_run "/config" " " "dark").
  - repeat constructor.
  - repeat constructor.
Qed.

Lemma find_command_with_args_builtin_witness :
  find_command_with_args default_registry "  /Theme   Solarized Dark "
  = Ok (Some (Builtin config_command), "Solarized Dark").
Proof.
  apply (proj1 (proj2 (find_command_with_args_builtin None None
                         default_registry init_default))
           "  /Theme   Solarized Dark " "/Theme" "Solarized Dark"
           "config" config_command).
  - by apply (splits_run "/Theme" "   " "Solarized Dark").
  - repeat constructor.
  - apply not_elem_of_nil.
  - repeat constructor.
Defined.

(** ** Custom-command discovery *)

Section SetFacts.
Context {V : Type}.
Implicit Types (d : Dict.t V) (k : string) (v : V).

Lemma set_keys k v d n :
  n ∈ Dict.keys (Dict.set k v d) ↔ n = k ∨ n ∈ Dict.keys d.
Proof.
  induction d as [|[k' v'] d IH]; simpl.
  - rewrite elem_of_cons, elem_of_nil. tauto.
  - case_decide as Hk; subst; csimpl; rewrite !elem_of_cons; [tauto|].
    rewrite IH. tauto.
Qed.

Lemma set_elem_of k v d n w :
  (n, w) ∈ Dict.set k v d → (n, w) = (k, v) ∨ (n, w) ∈ d.
Proof.
  induction d as [|[k' v'] d IH]; simpl.
  - rewrite elem_of_cons, elem_of_nil. tauto.
  - case_decide as Hk; subst; rewrite !elem_of_cons; [tauto|].
    intros [?|?%IH]; tauto.
Qed.

Lemma set_fresh k v d :
  k ∉ Dict.keys d → Dict.set k v d = (d ++ [(k, v)])%list.
Proof.
  induction d as [|[k' v'] d IH]; simpl; [done|].
  csimpl. rewrite not_elem_of_cons. intros [Hne Hk].
  rewrite decide_False by done. by rewrite IH.
Qed.

Lemma set_all_fresh (acc es : Dict.t V) :
  NoDup (Dict.keys (acc ++ es)%list) →
  foldl (λ d e, Dict.set e.1 e.2 d) acc es = (acc ++ es)%list.
Proof.
  revert acc. induction es as [|[k v] es IH]; intros acc Hnd; simpl.
  - by rewrite app_nil_r.
  - assert ((acc ++ (k, v) :: es) = ((acc ++ [(k, v)]) ++ es))%list as Heq
      by by rewrite <- app_assoc.
    rewrite Heq in Hnd |- *. rewrite set_fresh.
    + by apply IH.
    + rewrite !fmap_app in Hnd.
      apply NoDup_app in Hnd as [Hnd _]. apply NoDup_app in Hnd as (_ & Hd & _).
      intros Hin. apply (Hd _ Hin). simpl. by left.
Qed.

Lemma get_perm (d1 d2 : Dict.t V) k :
  NoDup (Dict.keys d1) → d1 ≡ₚ d2 → Dict.get k d1 = Dict.get k d2.
Proof.
  intros Hnd Hp.
  assert (NoDup (Dict.keys d2)) as Hnd2 by by rewrite <- Hp.
  destruct (Dict.get k d1) as [v|] eqn:Hg.
  - symmetry. apply get_Some; [done|]. rewrite <- Hp. by apply get_elem_of.
  - symmetry. apply get_None. apply get_None in Hg.
    by rewrite <- Hp.
Qed.
End SetFacts.

Lemma load_files_skip am f files acc :
  skipped am f = true →
  load_files am (f :: files) acc = load_files am files acc.
Proof.
  unfold skipped. cbn [load_files].
  destruct (Str.startswith "_" (stem f)); cbn [orb]; [done|].
  intros H%bool_decide_eq_true. by case_decide.
Qed.

Lemma load_files_read am f files acc :
  skipped am f = false →
  load_files am (f :: files) acc
  = match read_text f with
    | Unreadable => Raise (ReadError (stem f))
    | Text _ => load_files am files (Dict.set (entry f).1 (entry f).2 acc)
    end.
Proof.
  unfold skipped, entry, content. cbn [load_files fst snd].
  destruct (Str.startswith "_" (stem f)); cbn [orb]; [done|].
  intros H%bool_decide_eq_false. case_decide; [done|].
  by destruct (read_text f).
Qed.

(** When every file that is not skipped can be read, the scan registers
    exactly those files, in glob order. *)
Lemma load_files_Ok am files acc :
  Forall (λ f, skipped am f = false → read_text f ≠ Unreadable) files →
  load_files am files acc
  = Ok (foldl (λ d e, Dict.set e.1 e.2 d) acc
          (entry <$> filter (λ f, skipped am f = false) files)).
Proof.
  revert acc. induction files as [|f files IH]; intros acc Hall; [done|].
  apply Forall_cons in Hall as [Hf Hall].
  destruct (skipped am f) eqn:Hs.
  - rewrite load_files_skip by done.
    rewrite filter_cons_False by (by rewrite Hs). by apply IH.
  - rewrite load_files_read by done.
    rewrite filter_cons_True by done. csimpl.
    destruct (read_text f) eqn:Hr; [by apply IH|]. by destruct Hf.
Qed.

(** A file that is not skipped and cannot be read ends the scan with the
    exception of the read. *)
Lemma load_files_Raise am files acc :
  Exists (λ f, skipped am f = false ∧ read_text f = Unreadable) files →
  ∃ e, load_files am files acc = Raise e.
Proof.
  revert acc. induction files as [|f files IH]; intros acc Hex.
  - by apply Exists_nil in Hex.
  - destruct (skipped am f) eqn:Hs.
    + rewrite load_files_skip by done. apply IH.
      apply Exists_cons in Hex as [[? _]|?]; [congruence|done].
    + rewrite load_files_read by done.
      destruct (read_text f) eqn:Hr; [|by eauto].
      apply IH. apply Exists_cons in Hex as [[_ ?]|?]; [congruence|done].
Qed.

Lemma load_files_inv am files acc d :
  load_files am files acc = Ok d →
  Forall (λ f, skipped am f = false → read_text f ≠ Unreadable) files.
Proof.
  intros Hok.
  destruct (decide (Forall (λ f, skipped am f = false → read_text f ≠ Unreadable)
                      files)) as [|Hn]; [done|].
  apply not_Forall_Exists in Hn; [|apply _].
  destruct (load_files_Raise am files acc) as [e He]; [|congruence].
  eapply Exists_impl; [exact Hn|]. simpl. intros f Hf.
  destruct (skipped am f); destruct (read_text f); try done; by destruct Hf.
Qed.

Lemma foldl_set_keys {V} (acc es : Dict.t V) n :
  n ∈ Dict.keys (foldl (λ d e, Dict.set e.1 e.2 d) acc es)
  ↔ n ∈ Dict.keys acc ∨ n ∈ Dict.keys es.
Proof.
  revert acc. induction es as [|[k v] es IH]; intros acc; simpl.
  - rewrite elem_of_nil. tauto.
  - rewrite IH, set_keys. csimpl. rewrite elem_of_cons. tauto.
Qed.

Lemma foldl_set_elem_of {V} (acc es : Dict.t V) n w :
  (n, w) ∈ foldl (λ d e, Dict.set e.1 e.2 d) acc es →
  (n, w) ∈ acc ∨ (n, w) ∈ es.
Proof.
  revert acc. induction es as [|[k v] es IH]; intros acc; simpl; [tauto|].
  intros [[?|?]%set_elem_of|?]%IH; rewrite elem_of_cons; tauto.
Qed.

Section Discovery.
Variables (excluded_commands : option (list string)) (dir : command_dir).
Variable r : CommandRegistry.
Hypothesis Hinit : __init__ excluded_commands dir = Ok r.

Lemma skipped_eligible f :
  skipped (_alias_map r) f = false ↔ eligible excluded_commands f.
Proof using Hinit.
  rewrite (init_alias_map _ _ _ _ Hinit). apply skipped_index, iter_ok_id.
Qed.

Lemma custom_commands_eq files :
  dir = Some files →
  custom_commands r
  = foldl (λ d e, Dict.set e.1 e.2 d) []
      (entry <$> filter (λ f, skipped (_alias_map r) f = false) files).
Proof using Hinit.
  intros ->. pose proof (init_custom_commands _ _ _ _ Hinit) as Hload.
  simpl in Hload. pose proof (load_files_inv _ _ _ _ Hload) as Hall.
  rewrite load_files_Ok in Hload by done. by injection Hload.
Qed.

Lemma custom_commands_None : dir = None → custom_commands r = [].
Proof using Hinit.
  intros ->. pose proof (init_custom_commands _ _ _ _ Hinit) as Hload.
  simpl in Hload. by injection Hload.
Qed.

Lemma dir_cases : dir = None ∨ ∃ files, dir = Some files.
Proof using Type. clear. destruct dir; eauto. Qed.

(** The registered names are the stems of the eligible files. *)
Lemma custom_commands_keys n :
  n ∈ Dict.keys (custom_commands r)
  ↔ ∃ files f, dir = Some files ∧ f ∈ files ∧ stem f = n
               ∧ eligible excluded_commands f.
Proof using Hinit.
  destruct dir_cases as [Hd|[files Hd]].
  - rewrite custom_commands_None by done. simpl.
    rewrite elem_of_nil. split; [done|]. intros (? & ? & ? & _). congruence.
  - rewrite (custom_commands_eq files) by done. rewrite foldl_set_keys.
    rewrite elem_of_nil, <- list_fmap_compose.
    rewrite list_elem_of_fmap. split.
    + intros [[]|(f & -> & [Hs Hf]%list_elem_of_filter)].
      exists files, f. by rewrite <- skipped_eligible.
    + intros (? & f & Hd' & Hf & <- & He). right. exists f. split; [done|].
      apply list_elem_of_filter. rewrite skipped_eligible. split; [done|].
      congruence.
Qed.

(** Every entry is filed under the name it carries. *)
Lemma custom_commands_name n cc :
  (n, cc) ∈ custom_commands r → name cc = n.
Proof using Hinit.
  destruct dir_cases as [Hd|[files Hd]].
  - rewrite custom_commands_None by done. by intros ?%elem_of_nil.
  - rewrite (custom_commands_eq files) by done.
    intros [[]%elem_of_nil|Hin]%foldl_set_elem_of.
    apply list_elem_of_fmap in Hin as (f & [= -> ->] & _). done.
Qed.

Lemma custom_commands_get n :
  n ∈ Dict.keys (custom_commands r) →
  ∃ cc, Dict.get n (custom_commands r) = Some cc ∧ name cc = n.
Proof using Hinit.
  intros Hn. destruct (Dict.get n (custom_commands r)) as [cc|] eqn:Hg.
  - exists cc. split; [done|]. by apply custom_commands_name, get_elem_of.
  - by apply get_None in Hg.
Qed.

(** A stem that collides with an alias of the index is never registered. *)
Lemma custom_commands_no_conflict n :
  is_Some (_alias_map r !! ("/" ++ n)) →
  Dict.get n (custom_commands r) = None.
Proof using Hinit.
  intros [k Hk]. apply get_None. rewrite custom_commands_keys.
  intros (files & f & _ & _ & <- & _ & Hc). apply Hc.
  exists k. eapply alias_map_Some; eauto using iter_ok_id.
Qed.

End Discovery.

(** C3, as claimed, fails: with an unreadable eligible file in the
    directory the construction ends with the exception of the read, and
    the readable file next to it is registered nowhere. *)
Lemma unreadable_file_aborts_construction :
  let files := [ {| stem := "broken"; read_text := Unreadable |};
                 {| stem := "review"; read_text := Text "Review $ARGUMENTS" |} ] in
  __init__ None (Some files) = Raise (ReadError "broken")
  ∧ ¬ ∃ r, __init__ None (Some files) = Ok r
           ∧ "review" ∈ Dict.keys (custom_commands r).
Proof.
  assert (__init__ None (Some [ {| stem := "broken"; read_text := Unreadable |};
                 {| stem := "review"; read_text := Text "Review $ARGUMENTS" |} ])
          = Raise (ReadError "broken")) as H by by vm_compute.
  split; [done|]. intros (r & Hr & _). simpl in Hr. congruence.
Qed.

(** C3 (amended): files whose stem starts with an underscore or collides
    with a built-in alias are passed over without being read.  When every
    other file can be read, construction completes and each of them is
    registered; when one of them cannot be read, construction ends with an
    exception. *)
Theorem discovery_reads_every_eligible_file excluded_commands files :
  (Forall (λ f, eligible excluded_commands f → read_text f ≠ Unreadable) files →
   ∃ r, __init__ excluded_commands (Some files) = Ok r
        ∧ ∀ f, f ∈ files → eligible excluded_commands f →
               stem f ∈ Dict.keys (custom_commands r))
  ∧ (Exists (λ f, eligible excluded_commands f ∧ read_text f = Unreadable) files →
     ∃ e, __init__ excluded_commands (Some files) = Raise e).
Proof.
  pose proof (λ f, skipped_index (λ l, l) excluded_commands f iter_ok_id)
    as Hsk.
  unfold __init__. rewrite init_with_surviving. simpl. split.
  - intros Hall.
    rewrite load_files_Ok.
    2:{ eapply Forall_impl; [exact Hall|]. simpl. intros f Hf Hs.
        apply Hf. by apply Hsk. }
    eexists. split; [done|]. intros f Hf He.
    cbn [custom_commands]. rewrite foldl_set_keys. right.
    rewrite <- list_fmap_compose. apply list_elem_of_fmap.
    exists f. split; [done|]. apply list_elem_of_filter. split; [|done].
    by apply Hsk.
  - intros Hex.
    destruct (load_files_Raise
                (derive_alias_map (λ l, l) (surviving excluded_commands))
                files []) as [e He].
    + eapply Exists_impl; [exact Hex|]. simpl. intros f [Hf Hr].
      split; [|done]. by apply Hsk.
    + exists e. by rewrite He.
Qed.

Lemma discovery_reads_every_eligible_file_witness :
  (∃ r, __init__ None sample_dir = Ok r
        ∧ ∀ f, f ∈ default [] sample_dir → eligible None f →
               stem f ∈ Dict.keys (custom_commands r))
  ∧ ∃ e, __init__ None (Some [ {| stem := "broken"; read_text := Unreadable |} ])
         = Raise e.
Proof.
  split.
  - apply (proj1 (discovery_reads_every_eligible_file None
                    (default [] sample_dir))).
    repeat constructor; try done.
    intros [Hu _]. by vm_compute in Hu.
  - apply (proj2 (discovery_reads_every_eligible_file None
                    [ {| stem := "broken"; read_text := Unreadable |} ])).
    constructor. split; [|done]. split; [done|].
    intros (k & c & [_ Hkc]%elem_of_surviving & Ha).
    revert Ha. generalize (elem_of_builtin_aliases k c ("/" ++ "broken") Hkc).
    intros Hb Ha. specialize (Hb Ha). revert Hb.
    apply (bool_decide_unpack _). by vm_compute.
Defined.

(** ** Built-ins, custom commands and exclusion *)

Lemma tail_slash n : Str.tail ("/" ++ n) = n.
Proof. reflexivity. Qed.

Lemma startswith_slash n : Str.startswith "/" ("/" ++ n) = true.
Proof. reflexivity. Qed.

Lemma builtin_alias_token a :
  a ∈ builtin_aliases →
  command_token a = a ∧ argument_string a = "" ∧ Str.lower a = a.
Proof.
  intros (_ & Hl & Hs & Hsp & _)%builtin_alias_shape.
  unfold command_token, argument_string. by rewrite Hs, Hsp.
Qed.


(** C4: a file whose stem, behind a slash, is a key of the alias index is
    never registered as a custom command, and the alias keeps resolving to
    the built-in; with a [help.md] present, ["/help"] is still the built-in
    help command. *)
Theorem builtin_alias_shadows_custom excluded_commands dir r :
  __init__ excluded_commands dir = Ok r →
  (∀ n, is_Some (_alias_map r !! ("/" ++ n)) →
     (n ∉ Dict.keys (custom_commands r))
     ∧ ∃ k c, (k, c) ∈ commands r ∧ "/" ++ n ∈ aliases c
              ∧ find_command_with_args r ("/" ++ n)
                = Ok (Some (Builtin c), ""))
  ∧ ("help" ∉ excluded_keys excluded_commands →
     ("help" ∉ Dict.keys (custom_commands r))
     ∧ find_command_with_args r "/help" = Ok (Some (Builtin help_command), "")).
Proof.
  intros Hinit.
  assert (∀ n, is_Some (_alias_map r !! ("/" ++ n)) →
     (n ∉ Dict.keys (custom_commands r))
     ∧ ∃ k c, (k, c) ∈ commands r ∧ "/" ++ n ∈ aliases c
              ∧ find_command_with_args r ("/" ++ n)
                = Ok (Some (Builtin c), "")) as H.
  { intros n Hn. split.
    - apply get_None. by eapply custom_commands_no_conflict.
    - destruct Hn as [k Hk].
      pose proof (alias_map_builtin _ _ _ _ iter_ok_id Hinit _ _ Hk) as Hb.
      apply builtin_alias_token in Hb as (Htok & Hargs & Hlow).
      apply (alias_map_Some _ _ _ _ iter_ok_id Hinit) in Hk as (c & Hkc & Ha).
      exists k, c. rewrite (init_commands _ _ _ _ Hinit).
      split; [done|]. split; [done|].
      rewrite (with_args_builtin _ _ _ Hinit ("/" ++ n) k c Hkc).
      + by rewrite Hargs.
      + by rewrite Htok, Hlow. }
  split; [done|]. intros Hhelp.
  assert (_alias_map r !! ("/" ++ "help") = Some "help") as Hk.
  { apply (alias_map_Some _ _ _ _ iter_ok_id Hinit). exists help_command.
    split; [|repeat constructor].
    apply elem_of_surviving. split; [done|]. repeat constructor. }
  destruct (H "help") as (Hno & k & c & Hkc & Ha & Hf); [by eexists|].
  change ("/" ++ "help") with "/help" in *.
  split; [done|]. rewrite Hf.
  rewrite (init_commands _ _ _ _ Hinit) in Hkc.
  apply elem_of_surviving in Hkc as [_ Hkc].
  assert (("help", help_command) ∈ builtin_commands) as Hh by repeat constructor.
  assert ("/help" ∈ aliases help_command) as Ha' by repeat constructor.
  by destruct (builtin_alias_unique _ _ _ _ "/help" Hkc Hh Ha Ha') as [_ ->].
Qed.

Lemma builtin_alias_shadows_custom_witness :
  ("help" ∉ Dict.keys (custom_commands sample_registry))
  ∧ find_command_with_args sample_registry "/help"
    = Ok (Some (Builtin help_command), "").
Proof.
  apply (proj2 (builtin_alias_shadows_custom None sample_dir sample_registry
                  init_sample)).
  apply not_elem_of_nil.
Defined.

Lemma filter_ext_elem {A} (P Q : A → Prop)
    `{!∀ x, Decision (P x)} `{!∀ x, Decision (Q x)} (l : list A) :
  (∀ x, x ∈ l → P x ↔ Q x) → filter P l = filter Q l.
Proof.
  induction l as [|x l IH]; intros Hext; [done|].
  rewrite !filter_cons.
  rewrite IH by (intros y Hy; apply Hext; by right).
  destruct (decide (P x)) as [HP|HP], (decide (Q x)) as [HQ|HQ]; try done.
  - destruct HQ. apply Hext; [by left|done].
  - destruct HP. apply Hext; [by left|done].
Qed.

(** Keys of the exclusion list that name no built-in change nothing. *)
Lemma surviving_unknown_key ex1 ex2 k :
  k ∉ Dict.keys builtin_commands →
  surviving (Some (ex1 ++ k :: ex2)%list) = surviving (Some (ex1 ++ ex2)%list).
Proof.
  intros Hk. unfold surviving. apply filter_ext_elem. intros [k' c] Hkc.
  simpl. rewrite !elem_of_app, elem_of_cons.
  assert (k' ≠ k).
  { intros ->. apply Hk. apply list_elem_of_fmap. by exists (k, c). }
  tauto.
Qed.

(** An alias whose owner is excluded is in nobody's alias set any more. *)
Lemma excluded_alias_free excluded_commands k c a :
  k ∈ excluded_keys excluded_commands →
  (k, c) ∈ builtin_commands → a ∈ aliases c →
  ∀ k' c', (k', c') ∈ surviving excluded_commands → a ∉ aliases c'.
Proof.
  intros Hk Hkc Ha k' c' [Hk' Hkc']%elem_of_surviving Ha'.
  destruct (builtin_alias_unique _ _ _ _ _ Hkc Hkc' Ha Ha') as [-> _]. done.
Qed.

(** C5: an excluded key takes its command out of [commands] before the
    alias index is derived, so none of its aliases is in the index: with
    ["exit"] excluded, ["/exit"] resolves to nothing.  A freed alias can be
    taken by a custom command, and keys that name no built-in are ignored. *)
Theorem excluded_commands_leave_no_alias excluded dir r :
  __init__ (Some excluded) dir = Ok r →
  (∀ k c a, k ∈ excluded → (k, c) ∈ builtin_commands → a ∈ aliases c →
     Dict.get k (commands r) = None
     ∧ _alias_map r !! a = None
     ∧ find_command r a = None)
  ∧ ("exit" ∈ excluded → find_command r "/exit" = None)
  ∧ (∀ k c n files f,
       k ∈ excluded → (k, c) ∈ builtin_commands → "/" ++ n ∈ aliases c →
       dir = Some files → f ∈ files → stem f = n →
       ∃ cc, name cc = n
             ∧ find_command_with_args r ("/" ++ n)
               = Ok (Some (Custom cc), ""))
  ∧ (∀ ex1 ex2 k,
       k ∉ Dict.keys builtin_commands →
       __init__ (Some (ex1 ++ k :: ex2)%list) dir
       = __init__ (Some (ex1 ++ ex2)%list) dir).
Proof.
  intros Hinit. pose proof Hinit as Hinit'. unfold __init__ in Hinit'.
  assert (∀ k c a, k ∈ excluded → (k, c) ∈ builtin_commands → a ∈ aliases c →
     Dict.get k (commands r) = None
     ∧ _alias_map r !! a = None
     ∧ find_command r a = None) as H.
  { intros k c a Hk Hkc Ha.
    assert (_alias_map r !! a = None) as Hnone.
    { apply (alias_map_None _ _ _ _ iter_ok_id Hinit').
      by eapply excluded_alias_free. }
    split; [|split; [done|]].
    - apply get_None. rewrite (init_commands _ _ _ _ Hinit').
      intros ([k' c'] & -> & [Hk' _]%elem_of_surviving)%list_elem_of_fmap.
      done.
    - unfold find_command.
      destruct (builtin_alias_shape a) as (-> & _).
      { by eapply elem_of_builtin_aliases. }
      by rewrite Hnone. }
  split; [done|]. split; [|split].
  - intros Hexit.
    apply (H "exit" exit_command); [done|repeat constructor..].
  - intros k c n files f Hk Hkc Ha Hdir Hf Hstem.
    destruct (H k c _ Hk Hkc Ha) as (_ & Hnone & _).
    pose proof (elem_of_builtin_aliases _ _ _ Hkc Ha) as Hb.
    destruct (builtin_alias_shape _ Hb) as (_ & _ & _ & _ & n' & Hn' & Hus).
    apply (inj (String.append "/")) in Hn' as <-.
    apply builtin_alias_token in Hb as (Htok & Hargs & Hlow).
    assert (n ∈ Dict.keys (custom_commands r)) as Hkey.
    { apply (custom_commands_keys _ _ _ Hinit). exists files, f.
      repeat split; try done; [by rewrite Hstem|].
      intros (k' & c' & Hkc' & Ha'). rewrite Hstem in Ha'.
      by eapply (excluded_alias_free (Some excluded) k c). }
    apply (custom_commands_get _ _ _ Hinit) in Hkey as (cc & Hget & Hname).
    exists cc. split; [done|].
    rewrite (with_args_custom _ _ _ Hinit) by by rewrite Htok, Hlow.
    by rewrite Htok, Hlow, Hargs, startswith_slash, tail_slash, Hget.
  - intros ex1 ex2 k Hk. unfold __init__.
    by rewrite !init_with_surviving, surviving_unknown_key.
Qed.

Lemma init_exit : __init__ (Some ["exit"; "nope"]) exit_dir = Ok exit_registry.
Proof. by vm_compute. Qed.

Lemma excluded_commands_leave_no_alias_witness :
  find_command exit_registry "/exit" = None
  ∧ ∃ cc, name cc = "exit"
          ∧ find_command_with_args exit_registry "/exit"
            = Ok (Some (Custom cc), "").
Proof.
  pose proof (excluded_commands_leave_no_alias ["exit"; "nope"] exit_dir
                exit_registry init_exit) as (_ & Hexit & Hreuse & _).
  split.
  - apply Hexit. repeat constructor.
  - apply (Hreuse "exit" exit_command "exit"
             [ {| stem := "exit"; read_text := Text "Say goodbye to $ARGUMENTS" |} ]
             {| stem := "exit"; read_text := Text "Say goodbye to $ARGUMENTS" |});
      try reflexivity; repeat constructor.
Defined.

(** ** Unmatched input *)

(** C6: when the command token is no alias of a built-in and, without its
    leading slash, no name of a custom command, [find_command_with_args]
    returns nothing paired with the empty string, whatever argument text
    followed, and on a constructed registry it returns for every input;
    ["/unknown-thing foo"] gives (None, ""). *)
Theorem unmatched_input_resolves_to_nothing excluded_commands dir r :
  __init__ excluded_commands dir = Ok r →
  (∀ user_input, ∃ res, find_command_with_args r user_input = Ok res)
  ∧ (∀ user_input tok args,
       splits (Str.strip user_input) tok args →
       (∀ k c, (k, c) ∈ commands r → Str.lower tok ∉ aliases c) →
       (∀ n, Str.lower tok = "/" ++ n → n ∉ Dict.keys (custom_commands r)) →
       find_command_with_args r user_input = Ok (None, ""))
  ∧ ("unknown-thing" ∉ Dict.keys (custom_commands r) →
     find_command_with_args r "/unknown-thing foo" = Ok (None, "")).
Proof.
  intros Hinit. pose proof Hinit as Hinit'. unfold __init__ in Hinit'.
  assert (∀ user_input tok args,
       splits (Str.strip user_input) tok args →
       (∀ k c, (k, c) ∈ commands r → Str.lower tok ∉ aliases c) →
       (∀ n, Str.lower tok = "/" ++ n → n ∉ Dict.keys (custom_commands r)) →
       find_command_with_args r user_input = Ok (None, "")) as H.
  { intros u tok args [Htok _]%command_token_splits Hb Hc.
    rewrite (with_args_custom _ _ _ Hinit).
    - rewrite Htok.
      destruct (Str.startswith "/" (Str.lower tok)) eqn:Hs; [|done].
      apply startswith_spec in Hs as [n Hn].
      rewrite Hn, tail_slash.
      by rewrite (proj2 (get_None n (custom_commands r)) (Hc n Hn)).
    - rewrite Htok. apply (alias_map_None _ _ _ _ iter_ok_id Hinit').
      rewrite <- (init_commands _ _ _ _ Hinit'). apply Hb. }
  split; [by apply (with_args_returns _ _ _ Hinit)|]. split; [done|].
  intros Hunknown.
  apply (H "/unknown-thing foo" "/unknown-thing" "foo").
  - by apply (splits_run "/unknown-thing" " " "foo").
  - intros k c Hkc Ha. rewrite (init_commands _ _ _ _ Hinit') in Hkc.
    apply elem_of_surviving in Hkc as [_ Hkc].
    generalize (elem_of_builtin_aliases _ _ _ Hkc Ha).
    apply (bool_decide_unpack _). by vm_compute.
  - intros n Hn. change (Str.lower "/unknown-thing") with ("/" ++ "unknown-thing") in Hn.
    by apply (inj (String.append "/")) in Hn as <-.
Qed.

Lemma unmatched_input_resolves_to_nothing_witness :
  find_command_with_args sample_registry "  /Unknown-Thing   foo bar "
  = Ok (None, "").
Proof.
  apply (proj1 (proj2 (unmatched_input_resolves_to_nothing None sample_dir
                         sample_registry init_sample))
           "  /Unknown-Thing   foo bar " "/Unknown-Thing" "foo bar").
  - by apply (splits_run "/Unknown-Thing" "   " "foo bar").
  - intros k c Hkc Ha.
    generalize (elem_of_builtin_aliases _ _ _ Hkc Ha).
    apply (bool_decide_unpack _). by vm_compute.
  - intros n Hn.
    change (Str.lower "/Unknown-Thing") with ("/" ++ "unknown-thing") in Hn.
    apply (inj (String.append "/")) in Hn as <-.
    apply (bool_decide_unpack _). by vm_compute.
Defined.

(** ** Custom commands with upper-case names *)




(** ** Template rendering *)

Lemma occursb_spec old s : occursb old s = true ↔ occurs old s.
Proof.
  split.
  - induction s as [|c s IH]; simpl.
    + rewrite orb_false_r. intros [t ->]%startswith_spec. by exists "", t.
    + intros [[t Ht]%startswith_spec|(a & b & ->)%IH]%orb_true_iff.
      * by exists "", t.
      * by exists (String c a), b.
  - intros (a & b & ->). induction a as [|c a IH].
    + destruct (old ++ b) eqn:Heq; simpl; rewrite <- Heq;
        by rewrite startswith_app.
    + rewrite str_app_cons. simpl. rewrite IH. apply orb_true_r.
Qed.

Lemma not_occurs old s : occursb old s = false → ¬ occurs old s.
Proof. intros Hb Ho%occursb_spec. congruence. Qed.

Section Replace.
(** The pattern [String d p]: its first character does not come back. *)
Variables (d : ascii) (p new : string).
Hypothesis Hfree : free_of d p.

Local Abbreviation old := (String d p).

Lemma replace_from_skip q t :
  Str.replace_from (String.length q) old new (q ++ t)
  = Str.replace_from 0 old new t.
Proof using Type.
  induction q as [|c q IH]; [done|]. rewrite str_app_cons. simpl. apply IH.
Qed.

Lemma replace_match t :
  Str.replace old new (old ++ t) = new ++ Str.replace old new t.
Proof using Type.
  unfold Str.replace. rewrite str_app_cons.
  cbn [Str.replace_from]. rewrite <- str_app_cons, startswith_app.
  replace (String.length (String d p) - 1)%nat with (String.length p)
    by (simpl; lia).
  by rewrite replace_from_skip.
Qed.

Lemma replace_miss c s :
  Str.startswith old (String c s) = false →
  Str.replace old new (String c s) = String c (Str.replace old new s).
Proof using Type.
  intros Hs. unfold Str.replace. cbn [Str.replace_from]. by rewrite Hs.
Qed.

(** A string without the pattern is left as it is. *)
Lemma replace_absent s : ¬ occurs old s → Str.replace old new s = s.
Proof using Type.
  induction s as [|c s IH]; intros Hno; [done|].
  rewrite replace_miss.
  - rewrite IH; [done|]. intros (a & b & ->). apply Hno.
    by exists (String c a), b.
  - destruct (Str.startswith old (String c s)) eqn:Hs; [|done].
    apply startswith_spec in Hs as [t Ht]. destruct Hno. by exists "", t.
Qed.

(** No match of the pattern can start before the pattern and run into it. *)
Lemma startswith_before q a t :
  free_of d q →
  Str.startswith q (a ++ String d t) = Str.startswith q a.
Proof using Type.
  unfold free_of. revert a. induction q as [|c q IH]; intros a Hq; [done|].
  simpl in Hq. apply andb_true_iff in Hq as [Hc Hq].
  destruct a as [|x a]; simpl.
  - destruct (ascii_dec c d) as [->|]; [|done].
    by rewrite Ascii.eqb_refl in Hc.
  - destruct (ascii_dec c x); [by apply IH|done].
Qed.

Lemma startswith_old_before a b :
  a ≠ "" → Str.startswith old (a ++ old ++ b) = Str.startswith old a.
Proof using Hfree.
  destruct a as [|x a]; [done|]. intros _.
  rewrite !str_app_cons. simpl.
  destruct (ascii_dec d x); [|done]. by apply startswith_before.
Qed.

Lemma startswith_length q s :
  Str.startswith q s = true → (String.length q ≤ String.length s)%nat.
Proof using Type.
  revert s. induction q as [|c q IH]; intros [|x s]; simpl; try done; [lia|].
  destruct (ascii_dec c x); [|done]. intros ?%IH. lia.
Qed.

Lemma replace_from_around k a b :
  (k ≤ String.length a)%nat →
  Str.replace_from k old new (a ++ old ++ b)
  = Str.replace_from k old new a ++ new ++ Str.replace old new b.
Proof using Hfree.
  revert k. induction a as [|c a IH]; intros k Hk.
  - simpl in Hk. assert (k = 0%nat) as -> by lia. apply replace_match.
  - rewrite (str_app_cons c a). destruct k as [|k]; cbn [Str.replace_from].
    + rewrite <- (str_app_cons c a), startswith_old_before by done.
      destruct (Str.startswith old (String c a)) eqn:Hs.
      * rewrite str_app_assoc. f_equal. apply IH.
        apply startswith_length in Hs. simpl in *. lia.
      * rewrite (str_app_cons c). f_equal. apply IH. lia.
    + apply IH. simpl in Hk. lia.
Qed.

(** Each occurrence of the pattern is replaced, the text around it being
    rendered on its own. *)
Lemma replace_around a b :
  Str.replace old new (a ++ old ++ b)
  = Str.replace old new a ++ new ++ Str.replace old new b.
Proof using Hfree. apply replace_from_around. lia. Qed.

(** Pieces without the pattern, joined by it, are joined by [new] instead. *)
Lemma replace_join segs :
  Forall (λ s, ¬ occurs old s) segs →
  Str.replace old new (Str.join old segs) = Str.join new segs.
Proof using Hfree.
  induction segs as [|s segs IH]; intros Hall; [done|].
  apply Forall_cons in Hall as [Hs Hall].
  destruct segs as [|s' segs]; [by apply replace_absent|].
  cbn [Str.join]. rewrite replace_around. rewrite replace_absent by done.
  f_equal. f_equal. by apply IH.
Qed.

Lemma join_cons_head (sep : string) c x l :
  String c (Str.join sep (x :: l)) = Str.join sep (String c x :: l).
Proof using Type. by destruct l. Qed.

Lemma join_app_head (sep a b : string) l :
  Str.join sep ((a ++ b) :: l) = a ++ Str.join sep (b :: l).
Proof using Type. destruct l; [done|]. cbn [Str.join]. by rewrite str_app_assoc. Qed.

Lemma not_occurs_empty : ¬ occurs old "".
Proof using Type. intros (a & b & H). by destruct a. Qed.

(** Every string is made of pattern-free pieces joined by the pattern. *)
Lemma join_decompose s :
  ∃ segs, s = Str.join old segs ∧ segs ≠ []
          ∧ Forall (λ s, ¬ occurs old s) segs.
Proof using Type.
  induction s as [|c s (segs & Hs & Hne & Hall)].
  - exists [""]. repeat split; [done|]. repeat constructor. apply not_occurs_empty.
  - destruct segs as [|s0 rest]; [done|].
    apply Forall_cons in Hall as [Hs0 Hrest].
    rewrite Hs, join_cons_head.
    destruct (Str.startswith old (String c s0)) eqn:Hst.
    + apply startswith_spec in Hst as [t Ht]. exists ("" :: t :: rest).
      rewrite Ht, join_app_head. repeat split; [done|].
      constructor; [apply not_occurs_empty|]. constructor; [|done].
      intros (a & b & ->). apply Hs0.
      rewrite str_app_cons in Ht. injection Ht as _ ->.
      exists (p ++ a), b. by rewrite str_app_assoc.
    + exists (String c s0 :: rest). repeat split; [done|].
      constructor; [|done]. intros (a & b & Hab). destruct a as [|x a].
      * assert (Str.startswith old (String c s0) = true); [|congruence].
        apply startswith_spec. by exists b.
      * rewrite str_app_cons in Hab. injection Hab as _ ->.
        apply Hs0. by exists a, b.
Qed.

End Replace.

Lemma ARGUMENTS_unbordered : free_of "$" "ARGUMENTS".
Proof. reflexivity. Qed.

(** C7: [render] returns the template with every occurrence of the literal
    token [$ARGUMENTS] replaced by the argument string, taken verbatim: a
    template is pieces without the token joined by the token, and its
    rendering is the same pieces joined by the argument string.  A template
    without the token is returned unchanged. *)
Theorem render_replaces_every_ARGUMENTS cmd arguments :
  (∃ segs, template cmd = Str.join ARGUMENTS segs
           ∧ Forall (λ s, ¬ occurs ARGUMENTS s) segs)
  ∧ (∀ segs, template cmd = Str.join ARGUMENTS segs →
             Forall (λ s, ¬ occurs ARGUMENTS s) segs →
             render cmd arguments = Str.join arguments segs)
  ∧ (∀ a b, template cmd = a ++ ARGUMENTS ++ b →
            render cmd arguments
            = render {| name := name cmd; template := a |} arguments
              ++ arguments
              ++ render {| name := name cmd; template := b |} arguments)
  ∧ (¬ occurs ARGUMENTS (template cmd) → render cmd arguments = template cmd).
Proof.
  unfold render. repeat split.
  - destruct (join_decompose "$" "ARGUMENTS" (template cmd))
      as (segs & Hs & _ & Hall). by exists segs.
  - intros segs -> Hall. by apply (replace_join "$" "ARGUMENTS").
  - intros a b ->. cbn [template].
    apply (replace_around "$" "ARGUMENTS"), ARGUMENTS_unbordered.
  - apply (replace_absent "$" "ARGUMENTS").
Qed.

Lemma render_replaces_every_ARGUMENTS_witness :
  render {| name := "review"; template := "Review $ARGUMENTS please" |}
         "PR#1 (.*) \1 $ARGUMENTS"
  = "Review PR#1 (.*) \1 $ARGUMENTS please"
  ∧ render {| name := "hello"; template := "Say $ARGUMENT" |} "x"
    = "Say $ARGUMENT".
Proof.
  split.
  - apply (proj1 (proj2 (render_replaces_every_ARGUMENTS
             {| name := "review"; template := "Review $ARGUMENTS please" |}
             "PR#1 (.*) \1 $ARGUMENTS")) ["Review "; " please"]);
      [reflexivity|].
    repeat constructor; by apply not_occurs.
  - apply (proj2 (proj2 (proj2 (render_replaces_every_ARGUMENTS
             {| name := "hello"; template := "Say $ARGUMENT" |} "x")))).
    by apply not_occurs.
Defined.

(** ** Help text *)

Lemma insert_sorted_perm x l : Str.insert_sorted x l ≡ₚ x :: l.
Proof.
  induction l as [|y l IH]; simpl; [done|].
  destruct (String.leb x y); [done|]. rewrite IH. apply Permutation_swap.
Qed.

Lemma sorted_perm l : Str.sorted l ≡ₚ l.
Proof.
  induction l as [|x l IH]; simpl; [done|].
  by rewrite insert_sorted_perm, IH.
Qed.

Lemma insert_sorted_Sorted x l :
  Sorted String.le l → Sorted String.le (Str.insert_sorted x l).
Proof.
  induction 1 as [|y l Hl IH Hy]; simpl; [by repeat constructor|].
  destruct (String.leb x y) eqn:Hxy.
  - constructor; [by constructor|]. constructor. unfold String.le. by rewrite Hxy.
  - constructor; [done|].
    assert (String.le y x) as Hyx.
    { destruct (total String.le x y) as [H|H]; [|done].
      unfold String.le in H. by rewrite Hxy in H. }
    destruct l as [|z l]; simpl in *; [by constructor|].
    destruct (String.leb x z); constructor; [done|]. by inversion Hy.
Qed.

(** [sorted] puts the aliases in ascending order and keeps each of them. *)
Lemma sorted_Sorted l : StronglySorted String.le (Str.sorted l).
Proof.
  apply Sorted_StronglySorted; [intros x y z Hxy Hyz; by etrans|].
  induction l as [|x l IH]; simpl; [constructor|].
  by apply insert_sorted_Sorted.
Qed.

Lemma foldl_append {A} (f : A → string) (lines : list string) (xs : list A) :
  foldl (λ acc x, acc ++ [f x])%list lines xs = (lines ++ (f <$> xs))%list.
Proof.
  revert lines. induction xs as [|x xs IH]; intros lines; simpl.
  - by rewrite app_nil_r.
  - by rewrite IH, <- app_assoc.
Qed.

(** The lines [get_help_text] accumulates are the described layout. *)
Lemma help_lines_layout r :
  help_lines r = help_layout (commands r) (custom_commands r).
Proof.
  unfold help_lines, help_layout, custom_section.
  destruct (custom_commands r) as [|kc cc].
  - by rewrite foldl_append, app_nil_r.
  - rewrite !foldl_append. by rewrite <- !app_assoc.
Qed.

Lemma surviving_values_sublist excluded_commands :
  Dict.values (surviving excluded_commands)
    `sublist_of` Dict.values builtin_commands.
Proof. apply fmap_sublist, sublist_filter. Qed.

Lemma builtin_lines_single c :
  c ∈ Dict.values builtin_commands → ¬ occurs newline (command_line c).
Proof.
  assert (Forall (λ c, occursb newline (command_line c) = false)
                 (Dict.values builtin_commands)) as Hall
    by repeat constructor.
  rewrite Forall_forall in Hall. intros Hc. by apply not_occurs, Hall.
Qed.

Lemma heading_not_command_line cmds :
  "### Custom Commands" ∉ (help_preamble ++ (command_line <$> cmds))%list.
Proof.
  rewrite elem_of_app. intros [Hp|Hc].
  - revert Hp. apply (bool_decide_unpack _). by vm_compute.
  - apply list_elem_of_fmap in Hc as (c & Hc & _).
    unfold command_line in Hc. rewrite !str_app_cons in Hc. discriminate.
Qed.

(** ** Determinism of construction *)

Lemma init_with_iter iter1 iter2 excluded_commands dir :
  iter_ok iter1 → iter_ok iter2 →
  init_with iter1 excluded_commands dir = init_with iter2 excluded_commands dir.
Proof.
  intros H1 H2. rewrite !init_with_surviving.
  by rewrite (derive_alias_map_iter iter1 iter2).
Qed.

Lemma agree_refl a : agree a a.
Proof. by destruct a. Qed.

(** With distinct stems the scan registers the eligible files one after
    the other. *)
Lemma load_files_fresh am files :
  NoDup (stem <$> files) →
  Forall (λ f, skipped am f = false → read_text f ≠ Unreadable) files →
  load_files am files []
  = Ok (entry <$> filter (λ f, skipped am f = false) files).
Proof.
  intros Hnd Hall. rewrite load_files_Ok by done. f_equal.
  rewrite set_all_fresh; [done|]. simpl. rewrite <- list_fmap_compose.
  eapply sublist_NoDup; [exact Hnd|]. apply fmap_sublist, sublist_filter.
Qed.

Lemma load_files_perm am files1 files2 :
  files1 ≡ₚ files2 → NoDup (stem <$> files1) →
  match load_files am files1 [], load_files am files2 [] with
  | Ok d1, Ok d2 => NoDup (Dict.keys d1) ∧ d1 ≡ₚ d2
  | Raise _, Raise _ => True
  | _, _ => False
  end.
Proof.
  intros Hp Hnd.
  assert (NoDup (stem <$> files2)) as Hnd2 by by rewrite <- Hp.
  destruct (decide (Forall (λ f, skipped am f = false → read_text f ≠ Unreadable)
                      files1)) as [Hall|Hn].
  - rewrite !load_files_fresh; try done; [|by rewrite <- Hp]. split.
    + rewrite <- list_fmap_compose.
      eapply sublist_NoDup; [exact Hnd|]. apply fmap_sublist, sublist_filter.
    + by rewrite Hp.
  - apply not_Forall_Exists in Hn; [|apply _].
    assert (Exists (λ f, skipped am f = false ∧ read_text f = Unreadable) files1)
      as Hex.
    { eapply Exists_impl; [exact Hn|]. simpl. intros f Hf.
      destruct (skipped am f); destruct (read_text f); try done; by destruct Hf. }
    destruct (load_files_Raise am files1 [] Hex) as [e1 ->].
    rewrite Hp in Hex.
    by destruct (load_files_Raise am files2 [] Hex) as [e2 ->].
Qed.

(** C9: construction and resolution depend on nothing but the catalog, the
    exclusion list and the directory.  The order in which the alias sets
    are iterated leaves the registry unchanged, and so does, when the stems
    are distinct, the order in which the glob yields the files: the alias
    index and every answer of [find_command] and [find_command_with_args]
    are the same. *)
Theorem construction_deterministic iter1 iter2 excluded_commands :
  iter_ok iter1 → iter_ok iter2 →
  (∀ dir,
     init_with iter1 excluded_commands dir
     = init_with iter2 excluded_commands dir
     ∧ agree (init_with iter1 excluded_commands dir)
             (init_with iter2 excluded_commands dir))
  ∧ (∀ files1 files2,
       files1 ≡ₚ files2 → NoDup (stem <$> files1) →
       agree (init_with iter1 excluded_commands (Some files1))
             (init_with iter2 excluded_commands (Some files2))).
Proof.
  intros H1 H2. split.
  - intros dir. rewrite (init_with_iter iter1 iter2) by done.
    split; [done|apply agree_refl].
  - intros files1 files2 Hp Hnd.
    rewrite (init_with_iter iter1 iter2) by done.
    rewrite !init_with_surviving. simpl.
    pose proof (load_files_perm
                  (derive_alias_map iter2 (surviving excluded_commands))
                  files1 files2 Hp Hnd) as Hload.
    destruct (load_files _ files1 []) as [d1|e1],
             (load_files _ files2 []) as [d2|e2]; try done.
    destruct Hload as [Hnd1 Hd]. simpl. split; [done|]. intros u. split; [done|].
    rewrite !find_command_with_args_eq. cbn [commands _alias_map custom_commands].
    by rewrite (get_perm d1 d2).
Qed.

Lemma construction_deterministic_witness :
  agree (init_with (λ l, l) (Some ["exit"])
           (Some [ {| stem := "review"; read_text := Text "Review $ARGUMENTS" |};
                   {| stem := "exit"; read_text := Text "Bye" |} ]))
        (init_with reverse (Some ["exit"])
           (Some [ {| stem := "exit"; read_text := Text "Bye" |};
                   {| stem := "review"; read_text := Text "Review $ARGUMENTS" |} ])).
Proof.
  apply (proj2 (construction_deterministic (λ l, l) reverse (Some ["exit"])
                  iter_ok_id reverse_Permutation)).
  - apply Permutation_swap.
  - apply (bool_decide_unpack _). by vm_compute.
Defined.

(** * Further properties of the registry *)

(** ** Trimming and tokens *)

Lemma rstrip_all_space s : all_space s → Str.rstrip s = "".
Proof.
  unfold all_space. induction s as [|c s IH]; simpl; [done|].
  intros [Hc Hs]%andb_true_iff. by rewrite IH, Hc.
Qed.

Lemma rstrip_suffix a b : Str.rstrip (a ++ b) = a ++ b → Str.rstrip b = b.
Proof.
  induction a as [|c a IH]; [done|]. rewrite str_app_cons. simpl.
  destruct (Str.rstrip (a ++ b)) as [|d r] eqn:Hr.
  - destruct (Str.isspace c); [done|]. intros [= Hab].
    by destruct a, b.
  - intros [= Hab]. by apply IH.
Qed.

Lemma rstrip_idem s : Str.rstrip (Str.rstrip s) = Str.rstrip s.
Proof.
  induction s as [|c s IH]; simpl; [done|].
  destruct (Str.rstrip s) as [|d r] eqn:Hr.
  - destruct (Str.isspace c) eqn:Hc; simpl; [done|]. by rewrite Hc.
  - cbn [Str.rstrip] in IH |- *. by rewrite IH.
Qed.

Lemma rstrip_strip s : Str.rstrip (Str.strip s) = Str.strip s.
Proof. apply rstrip_idem. Qed.




Lemma strip_all_space s : all_space s → Str.strip s = "".
Proof.
  intros Hs. unfold Str.strip.
  pose proof (lstrip_all_space s "" Hs) as Hl.
  rewrite str_app_nil_r in Hl. by rewrite Hl.
Qed.

Lemma no_space_lower s : no_space (Str.lower s) ↔ no_space s.
Proof.
  unfold no_space. induction s as [|c s IH]; simpl; [done|].
  by rewrite !andb_true_iff, isspace_lower_char, IH.
Qed.


Lemma startswith_slash_lower s :
  Str.startswith "/" (Str.lower s) = Str.startswith "/" s.
Proof.
  destruct s as [|c s]; simpl; [done|].
  by destruct c as [[] [] [] [] [] [] [] []].
Qed.

Lemma startswith_slash_take_word s :
  Str.startswith "/" (Str.take_word s) = true → Str.startswith "/" s = true.
Proof.
  destruct s as [|c s]; simpl; [done|].
  destruct (Str.isspace c); [done|]. simpl. by destruct (ascii_dec "/" c).
Qed.

(** The token is the first word of the trimmed input. *)
Lemma command_token_take_word user_input :
  command_token user_input = Str.take_word (Str.strip user_input).
Proof.
  unfold command_token, Str.split1. rewrite lstrip_strip.
  by destruct (Str.strip user_input).
Qed.

Lemma command_token_no_space user_input : no_space (command_token user_input).
Proof. rewrite command_token_take_word. apply take_drop_word. Qed.

(** What the split leaves for the two parts, whatever the input. *)
Lemma split_shape user_input :
  (argument_string user_input = ""
   ∧ command_token user_input = Str.strip user_input)
  ∨ (argument_string user_input ≠ ""
     ∧ ∃ ws, ws ≠ "" ∧ all_space ws
             ∧ Str.strip user_input
               = command_token user_input ++ ws ++ argument_string user_input).
Proof.
  destruct (splits_strip_total user_input) as (tok & args & Hs).
  pose proof (command_token_splits _ _ _ Hs) as [Htok Hargs].
  rewrite Htok, Hargs. clear Htok Hargs.
  remember (Str.strip user_input) as s eqn:Heq.
  destruct Hs as [t Ht|t ws rest Hne Ht Hwne Hws Hrest]; [by left|].
  destruct rest as [|c rest].
  - pose proof (rstrip_strip user_input) as Hr. rewrite <- Heq in Hr.
    rewrite str_app_nil_r in Hr. apply rstrip_suffix in Hr.
    rewrite rstrip_all_space in Hr by done. by destruct Hwne.
  - right. split; [done|]. by exists ws.
Qed.

Lemma argument_string_stripped user_input :
  Str.strip (argument_string user_input) = argument_string user_input.
Proof.
  destruct (split_shape user_input) as [[-> _]|(_ & ws & _ & Hws & Heq)]; [done|].
  pose proof (rstrip_strip user_input) as Hr. rewrite Heq in Hr.
  apply rstrip_suffix, rstrip_suffix in Hr.
  unfold Str.strip. rewrite <- Hr at 2. f_equal.
  destruct (splits_strip_total user_input) as (tok & args & Hs).
  pose proof (command_token_splits _ _ _ Hs) as [_ <-].
  destruct Hs; [done|]. done.
Qed.

Lemma all_chars_app p s t :
  all_chars p (s ++ t) = all_chars p s && all_chars p t.
Proof.
  induction s as [|c s IH]; [done|]. rewrite str_app_cons. simpl.
  by rewrite IH, andb_assoc.
Qed.

Lemma space_and_no_space ws : all_space ws → no_space ws → ws = "".
Proof.
  unfold all_space, no_space. destruct ws as [|c ws]; simpl; [done|].
  intros [-> _]%andb_true_iff [? _]%andb_true_iff. done.
Qed.

Lemma builtin_alias_no_space a : a ∈ builtin_aliases → no_space a.
Proof.
  assert (Forall no_space builtin_aliases) as Hall by by repeat constructor.
  rewrite Forall_forall in Hall. apply Hall.
Qed.

(** An input whose trimmed form holds no whitespace is its own token. *)
Lemma bare_token user_input :
  no_space (Str.strip user_input) →
  command_token user_input = Str.strip user_input
  ∧ argument_string user_input = "".
Proof.
  intros Hs. destruct (split_shape user_input)
    as [[? ?]|(_ & ws & Hne & Hws & Heq)]; [done|].
  rewrite Heq in Hs. unfold no_space in Hs.
  rewrite !all_chars_app, !andb_true_iff in Hs.
  destruct Hs as (_ & Hs & _). by apply space_and_no_space in Hs.
Qed.

(** ** What a resolution result tells *)

Lemma find_command_inv r user_input c :
  find_command r user_input = Some c →
  ∃ k, _alias_map r !! Str.strip (Str.lower user_input) = Some k
       ∧ k ≠ "" ∧ Dict.get k (commands r) = Some c.
Proof.
  unfold find_command.
  destruct (_alias_map r !! _) as [[|d k]|]; try done.
  intros Hget. by exists (String d k).
Qed.

Lemma with_args_Builtin_inv r user_input c args :
  find_command_with_args r user_input = Ok (Some (Builtin c), args) →
  ∃ k, _alias_map r !! Str.lower (command_token user_input) = Some k
       ∧ k ≠ "" ∧ Dict.get k (commands r) = Some c
       ∧ args = argument_string user_input.
Proof.
  rewrite find_command_with_args_eq. cbv zeta.
  destruct (_alias_map r !! _) as [[|d k]|].
  - destruct (Str.startswith _ _); [|done].
    by destruct (Dict.get _ (custom_commands r)).
  - destruct (Dict.get _ (commands r)) as [c'|] eqn:Hget; [|done].
    intros [= -> <-]. by exists (String d k).
  - destruct (Str.startswith _ _); [|done].
    by destruct (Dict.get _ (custom_commands r)).
Qed.

Lemma with_args_Custom_shape r user_input cc args :
  find_command_with_args r user_input = Ok (Some (Custom cc), args) →
  Str.startswith "/" (Str.lower (command_token user_input)) = true
  ∧ Dict.get (Str.tail (Str.lower (command_token user_input)))
             (custom_commands r) = Some cc
  ∧ args = argument_string user_input.
Proof.
  rewrite find_command_with_args_eq. cbv zeta.
  destruct (_alias_map r !! _) as [[|d k]|].
  - destruct (Str.startswith _ _); [|done].
    destruct (Dict.get _ (custom_commands r)); [|done]. by intros [= -> <-].
  - by destruct (Dict.get _ (commands r)).
  - destruct (Str.startswith _ _); [|done].
    destruct (Dict.get _ (custom_commands r)); [|done]. by intros [= -> <-].
Qed.

Section Soundness.
Variables (excluded_commands : option (list string)) (dir : command_dir).
Variable r : CommandRegistry.
Hypothesis Hinit : __init__ excluded_commands dir = Ok r.

Lemma alias_owner a k c :
  _alias_map r !! a = Some k → Dict.get k (commands r) = Some c →
  (k, c) ∈ surviving excluded_commands ∧ a ∈ aliases c.
Proof using Hinit.
  pose proof Hinit as Hinit'. unfold __init__ in Hinit'.
  intros (c' & Hkc & Ha)%(alias_map_Some _ _ _ _ iter_ok_id Hinit') Hget.
  rewrite (commands_get _ _ _ _ Hinit' _ _ Hkc) in Hget. by injection Hget as <-.
Qed.

Lemma alias_starts_with_slash a k :
  _alias_map r !! a = Some k → Str.startswith "/" a = true.
Proof using Hinit.
  pose proof Hinit as Hinit'. unfold __init__ in Hinit'.
  intros Hb%(alias_map_builtin _ _ _ _ iter_ok_id Hinit').
  apply builtin_alias_shape in Hb as (_ & _ & _ & _ & n & -> & _). done.
Qed.

End Soundness.

(** X1: both resolution functions only ever return a built-in that
    survived the exclusion step and that owns the normalised input
    ([find_command]) or the lowercased token ([find_command_with_args]);
    a command of an excluded key is never returned. *)
Theorem resolution_returns_owning_survivor excluded_commands dir r :
  __init__ excluded_commands dir = Ok r →
  (∀ user_input c,
     find_command r user_input = Some c →
     ∃ k, (k, c) ∈ builtin_commands ∧ (k ∉ excluded_keys excluded_commands)
          ∧ normalize user_input ∈ aliases c)
  ∧ (∀ user_input c args,
       find_command_with_args r user_input = Ok (Some (Builtin c), args) →
       ∃ k, (k, c) ∈ builtin_commands ∧ (k ∉ excluded_keys excluded_commands)
            ∧ Str.lower (command_token user_input) ∈ aliases c
            ∧ args = argument_string user_input).
Proof.
  intros Hinit. split.
  - intros u c (k & Hk & _ & Hget)%find_command_inv.
    destruct (alias_owner _ _ _ Hinit _ _ _ Hk Hget)
      as [[Hex Hkc]%elem_of_surviving Ha].
    exists k. unfold normalize. by rewrite lower_strip.
  - intros u c args (k & Hk & _ & Hget & ->)%with_args_Builtin_inv.
    destruct (alias_owner _ _ _ Hinit _ _ _ Hk Hget)
      as [[Hex Hkc]%elem_of_surviving Ha].
    by exists k.
Qed.

Lemma resolution_returns_owning_survivor_witness :
  ∃ k, (k, config_command) ∈ builtin_commands ∧ (k ∉ excluded_keys None)
       ∧ normalize " /MODEL " ∈ aliases config_command.
Proof.
  apply (proj1 (resolution_returns_owning_survivor None None default_registry
                  init_default) " /MODEL " config_command).
  reflexivity.
Defined.

(** X2: the two entry points agree on bare commands: [find_command]
    returns a command exactly when [find_command_with_args] returns that
    built-in with an empty argument string. *)
Theorem find_command_iff_bare_with_args excluded_commands dir r :
  __init__ excluded_commands dir = Ok r →
  ∀ user_input c,
    find_command r user_input = Some c
    ↔ find_command_with_args r user_input = Ok (Some (Builtin c), "").
Proof.
  intros Hinit u c. pose proof Hinit as Hinit'. unfold __init__ in Hinit'.
  split.
  - intros (k & Hk & _ & Hget)%find_command_inv.
    rewrite <- lower_strip in Hk.
    pose proof (alias_map_builtin _ _ _ _ iter_ok_id Hinit' _ _ Hk) as Hb.
    apply builtin_alias_no_space, no_space_lower, bare_token in Hb
      as [Htok Hargs].
    destruct (alias_owner _ _ _ Hinit _ _ _ Hk Hget) as [Hkc Ha].
    rewrite <- Hargs. apply (with_args_builtin _ _ _ Hinit u k c Hkc).
    by rewrite Htok.
  - intros (k & Hk & Hne & Hget & Hargs)%with_args_Builtin_inv.
    destruct (split_shape u) as [[_ Htok]|[Hargs' _]]; [|by destruct Hargs'].
    unfold find_command. rewrite <- lower_strip, <- Htok, Hk.
    by destruct k.
Qed.

Lemma find_command_iff_bare_with_args_witness :
  find_command default_registry "/Status  " = Some
    {| aliases := ["/status"]; description := "Display agent statistics";
       handler := "_show_status"; exits := false |}.
Proof.
  apply (find_command_iff_bare_with_args None None default_registry
           init_default).
  reflexivity.
Defined.

(** X3: whatever [find_command_with_args] finds, the argument string it
    returns is the rest of the trimmed input behind the token and its
    following whitespace: case and inner whitespace are kept, and it has no
    whitespace at either end. *)
Theorem argument_string_shape r user_input found args :
  find_command_with_args r user_input = Ok (Some found, args) →
  Str.strip args = args
  ∧ no_space (command_token user_input)
  ∧ (args = "" ∧ Str.strip user_input = command_token user_input
     ∨ ∃ ws, ws ≠ "" ∧ all_space ws
             ∧ Str.strip user_input = command_token user_input ++ ws ++ args).
Proof.
  intros Hres.
  assert (args = argument_string user_input) as ->.
  { destruct found as [c|cc].
    - by apply with_args_Builtin_inv in Hres as (k & _ & _ & _ & ->).
    - by apply with_args_Custom_shape in Hres as (_ & _ & ->). }
  split; [apply argument_string_stripped|].
  split; [apply command_token_no_space|].
  destruct (split_shape user_input) as [[-> ->]|(_ & ws & ? & ? & ?)].
  - by left.
  - right. by exists ws.
Qed.

Lemma argument_string_shape_witness :
  Str.strip "Fix  The BUG" = "Fix  The BUG"
  ∧ no_space (command_token "  /review   Fix  The BUG  ")
  ∧ ("Fix  The BUG" = ""
     ∧ Str.strip "  /review   Fix  The BUG  "
       = command_token "  /review   Fix  The BUG  "
     ∨ ∃ ws, ws ≠ "" ∧ all_space ws
             ∧ Str.strip "  /review   Fix  The BUG  "
               = command_token "  /review   Fix  The BUG  " ++ ws
                 ++ "Fix  The BUG").
Proof.
  apply (argument_string_shape sample_registry "  /review   Fix  The BUG  "
           (Custom {| name := "review"; template := "Review $ARGUMENTS please" |})).
  reflexivity.
Defined.

(** X4: an empty input, or one made of whitespace only, is no command for
    either entry point. *)
Theorem blank_input_is_no_command excluded_commands dir r user_input :
  __init__ excluded_commands dir = Ok r →
  all_space user_input →
  find_command r user_input = None
  ∧ find_command_with_args r user_input = Ok (None, "").
Proof.
  intros Hinit Hblank. pose proof Hinit as Hinit'. unfold __init__ in Hinit'.
  assert (_alias_map r !! "" = None) as Hnone.
  { destruct (_alias_map r !! "") as [k|] eqn:Hk; [|done].
    by apply (alias_starts_with_slash _ _ _ Hinit) in Hk. }
  split.
  - unfold find_command. rewrite <- lower_strip, strip_all_space by done.
    cbn [Str.lower]. by rewrite Hnone.
  - rewrite find_command_with_args_eq. cbv zeta.
    unfold command_token. rewrite strip_all_space by done.
    cbn [Str.split1 Str.lstrip Str.lower]. by rewrite Hnone.
Qed.

Lemma blank_input_is_no_command_witness :
  find_command sample_registry "   " = None
  ∧ find_command_with_args sample_registry "   " = Ok (None, "").
Proof.
  apply (blank_input_is_no_command None sample_dir sample_registry "   "
           init_sample).
  reflexivity.
Defined.

(** X5: only input that starts with a slash once trimmed ever resolves,
    to a built-in or to a custom command. *)
Theorem only_slash_input_resolves excluded_commands dir r :
  __init__ excluded_commands dir = Ok r →
  (∀ user_input c,
     find_command r user_input = Some c →
     Str.startswith "/" (Str.strip user_input) = true)
  ∧ (∀ user_input found args,
       find_command_with_args r user_input = Ok (Some found, args) →
       Str.startswith "/" (Str.strip user_input) = true).
Proof.
  intros Hinit. split.
  - intros u c (k & Hk & _)%find_command_inv.
    rewrite <- lower_strip in Hk.
    apply (alias_starts_with_slash _ _ _ Hinit) in Hk.
    by rewrite startswith_slash_lower in Hk.
  - intros u found args Hres.
    apply startswith_slash_take_word. rewrite <- command_token_take_word.
    rewrite <- startswith_slash_lower. destruct found as [c|cc].
    + apply with_args_Builtin_inv in Hres as (k & Hk & _).
      by apply (alias_starts_with_slash _ _ _ Hinit) in Hk.
    + by apply with_args_Custom_shape in Hres as (? & _).
Qed.

Lemma only_slash_input_resolves_witness :
  Str.startswith "/" (Str.strip "  /review x") = true.
Proof.
  apply (proj2 (only_slash_input_resolves None sample_dir sample_registry
                  init_sample) "  /review x"
           (Custom {| name := "review"; template := "Review $ARGUMENTS please" |})
           "x").
  reflexivity.
Defined.

(** ** The custom-command table *)

Section SetLookup.
Context {V : Type}.
Implicit Types (d : Dict.t V) (k n : string) (v : V).

Lemma get_set n k v d :
  Dict.get n (Dict.set k v d) = if decide (n = k) then Some v else Dict.get n d.
Proof.
  induction d as [|[k' v'] d IH]; simpl.
  - by repeat case_decide.
  - destruct (decide (k = k')) as [->|Hk]; simpl.
    + by repeat case_decide.
    + rewrite IH. repeat case_decide; congruence.
Qed.

Lemma set_NoDup k v d : NoDup (Dict.keys d) → NoDup (Dict.keys (Dict.set k v d)).
Proof.
  induction d as [|[k' v'] d IH]; simpl.
  - intros _. apply NoDup_singleton.
  - intros [Hk' Hd]%NoDup_cons. case_decide as Hk; subst; csimpl.
    + by apply NoDup_cons.
    + apply NoDup_cons. split; [|by apply IH].
      rewrite set_keys. intros [?|?]; [congruence|done].
Qed.

Lemma foldl_set_NoDup (acc es : Dict.t V) :
  NoDup (Dict.keys acc) →
  NoDup (Dict.keys (foldl (λ d e, Dict.set e.1 e.2 d) acc es)).
Proof.
  revert acc. induction es as [|[k v] es IH]; intros acc Hacc; simpl; [done|].
  by apply IH, set_NoDup.
Qed.

Lemma foldl_set_get_other (acc es : Dict.t V) n :
  n ∉ Dict.keys es →
  Dict.get n (foldl (λ d e, Dict.set e.1 e.2 d) acc es) = Dict.get n acc.
Proof.
  revert acc. induction es as [|[k v] es IH]; intros acc; csimpl; [done|].
  rewrite not_elem_of_cons. intros [Hne Hn]. rewrite IH by done.
  rewrite get_set. by rewrite decide_False.
Qed.
End SetLookup.

Section Table.
Variables (excluded_commands : option (list string)) (dir : command_dir).
Variable r : CommandRegistry.
Hypothesis Hinit : __init__ excluded_commands dir = Ok r.

Lemma custom_commands_NoDup : NoDup (Dict.keys (custom_commands r)).
Proof using Hinit.
  destruct (dir_cases dir) as [Hd|[files Hd]].
  - rewrite (custom_commands_None _ _ _ Hinit Hd). apply NoDup_nil_2.
  - rewrite (custom_commands_eq _ _ _ Hinit files Hd).
    apply foldl_set_NoDup, NoDup_nil_2.
Qed.


Lemma eligible_readable files f :
  dir = Some files → f ∈ files → eligible excluded_commands f →
  read_text f = Text (content f).
Proof using Hinit.
  intros Hd Hf He.
  pose proof (init_custom_commands _ _ _ _ Hinit) as Hload.
  rewrite Hd in Hload. simpl in Hload.
  apply load_files_inv in Hload. rewrite Forall_forall in Hload.
  specialize (Hload f Hf).
  rewrite (skipped_eligible _ _ _ Hinit) in Hload. specialize (Hload He).
  unfold content. by destruct (read_text f).
Qed.

End Table.



(** X7: no file whose stem starts with an underscore becomes a custom
    command, and no input resolves to a command of such a name. *)
Theorem underscore_files_are_no_commands excluded_commands dir r :
  __init__ excluded_commands dir = Ok r →
  (∀ n, n ∈ Dict.keys (custom_commands r) → Str.startswith "_" n = false)
  ∧ (∀ user_input cc args,
       find_command_with_args r user_input = Ok (Some (Custom cc), args) →
       Str.startswith "_" (name cc) = false).
Proof.
  intros Hinit.
  assert (∀ n, n ∈ Dict.keys (custom_commands r) →
               Str.startswith "_" n = false) as Hkeys.
  { intros n (files & f & _ & _ & <- & Hus & _)%(custom_commands_keys _ _ _ Hinit).
    done. }
  split; [done|].
  intros u cc args (_ & Hget%get_elem_of & _)%with_args_Custom_shape.
  pose proof (custom_commands_name _ _ _ Hinit _ _ Hget) as ->.
  apply Hkeys, list_elem_of_fmap. by eexists (_, cc).
Qed.

Lemma underscore_files_are_no_commands_witness :
  Str.startswith "_" "review" = false.
Proof.
  apply (proj1 (underscore_files_are_no_commands None sample_dir
                  sample_registry init_sample)).
  repeat constructor.
Defined.

(** X8: files that are passed over are never read: a directory in which
    every file starts with an underscore or collides with a built-in alias
    gives the registry of a missing directory, readable or not. *)
Theorem skipped_files_are_never_read excluded_commands files :
  Forall (λ f, ¬ eligible excluded_commands f) files →
  __init__ excluded_commands (Some files) = __init__ excluded_commands None.
Proof.
  intros Hall. unfold __init__. rewrite !init_with_surviving. simpl.
  pose proof (λ f, skipped_index (λ l, l) excluded_commands f iter_ok_id)
    as Hsk.
  rewrite load_files_Ok.
  - assert (filter (λ f, skipped (derive_alias_map (λ l, l)
                                    (surviving excluded_commands)) f = false)
                   files = []) as ->; [|done].
    induction Hall as [|f files Hf _ IH]; [done|].
    rewrite filter_cons_False; [done|]. by rewrite Hsk.
  - eapply Forall_impl; [exact Hall|]. simpl. intros f Hf Hs.
    destruct Hf. by apply Hsk.
Qed.

Lemma skipped_files_are_never_read_witness :
  __init__ None (Some [ {| stem := "_notes"; read_text := Unreadable |};
                        {| stem := "help"; read_text := Unreadable |} ])
  = __init__ None None.
Proof.
  apply skipped_files_are_never_read.
  repeat constructor.
  - intros [Hus _]. by vm_compute in Hus.
  - intros [_ Hc]. apply Hc. exists "help", help_command.
    split; [|repeat constructor].
    apply elem_of_surviving. split; [apply not_elem_of_nil|repeat constructor].
Defined.

(** X9: the alias index and [commands] stay consistent: an alias points to
    a key exactly when [commands] holds a command under that key that lists
    the alias, so no key of the index dangles. *)
Theorem alias_map_consistent_with_commands excluded_commands dir r :
  __init__ excluded_commands dir = Ok r →
  NoDup (Dict.keys (commands r))
  ∧ ∀ a k,
      _alias_map r !! a = Some k
      ↔ ∃ c, Dict.get k (commands r) = Some c ∧ a ∈ aliases c.
Proof.
  intros Hinit. pose proof Hinit as Hinit'. unfold __init__ in Hinit'.
  split.
  - rewrite (init_commands _ _ _ _ Hinit'). apply surviving_keys_NoDup.
  - intros a k. rewrite (alias_map_Some _ _ _ _ iter_ok_id Hinit'). split.
    + intros (c & Hkc & Ha). exists c. split; [|done].
      by apply (commands_get _ _ _ _ Hinit').
    + intros (c & Hget%get_elem_of & Ha). exists c. split; [|done].
      by rewrite <- (init_commands _ _ _ _ Hinit').
Qed.

Lemma alias_map_consistent_with_commands_witness :
  NoDup (Dict.keys (commands exit_registry))
  ∧ ∀ a k,
      _alias_map exit_registry !! a = Some k
      ↔ ∃ c, Dict.get k (commands exit_registry) = Some c ∧ a ∈ aliases c.
Proof.
  apply (alias_map_consistent_with_commands (Some ["exit"; "nope"]) exit_dir
           exit_registry init_exit).
Defined.

(** X10: the names of the custom-command table are pairwise distinct, and
    when several eligible files share a stem the one the glob yields last
    provides the template. *)
Theorem last_file_with_a_stem_wins excluded_commands dir r :
  __init__ excluded_commands dir = Ok r →
  NoDup (Dict.keys (custom_commands r))
  ∧ ∀ before f after,
      dir = Some (before ++ f :: after)%list →
      eligible excluded_commands f →
      (∀ g, g ∈ after → eligible excluded_commands g → stem g ≠ stem f) →
      read_text f = Text (content f)
      ∧ Dict.get (stem f) (custom_commands r)
        = Some {| name := stem f; template := content f |}.
Proof.
  intros Hinit. split; [by eapply custom_commands_NoDup|].
  intros before f after Hd He Hlast. split.
  - apply (eligible_readable _ _ _ Hinit _ f Hd); [|done].
    apply elem_of_app. right. by left.
  - rewrite (custom_commands_eq _ _ _ Hinit _ Hd).
    rewrite filter_app, filter_cons_True
      by by apply (skipped_eligible _ _ _ Hinit).
    rewrite fmap_app, foldl_app. csimpl.
    rewrite foldl_set_get_other.
    + rewrite get_set. by rewrite decide_True.
    + rewrite <- list_fmap_compose.
      intros (g & Hg & [Hs Hin]%list_elem_of_filter)%list_elem_of_fmap.
      apply (skipped_eligible _ _ _ Hinit) in Hs.
      by destruct (Hlast g Hin Hs).
Qed.

Lemma init_note : __init__ None note_dir = Ok note_registry.
Proof. by vm_compute. Qed.

Lemma last_file_with_a_stem_wins_witness :
  read_text {| stem := "note"; read_text := Text "second" |} = Text "second"
  ∧ Dict.get "note" (custom_commands note_registry)
    = Some {| name := "note"; template := "second" |}.
Proof.
  apply (proj2 (last_file_with_a_stem_wins None note_dir note_registry
                  init_note)
           [ {| stem := "note"; read_text := Text "first" |} ]
           {| stem := "note"; read_text := Text "second" |} []).
  - reflexivity.
  - split; [reflexivity|].
    intros (k & c & [_ Hkc]%elem_of_surviving & Ha).
    generalize (elem_of_builtin_aliases k c ("/" ++ "note") Hkc Ha).
    apply (bool_decide_unpack _). by vm_compute.
  - by intros g ?%elem_of_nil.
Defined.

(** X11: when the stems of the directory are distinct, the custom-command
    table lists the files that were not passed over in the order the glob
    yielded them. *)
Theorem custom_commands_in_glob_order excluded_commands files r :
  __init__ excluded_commands (Some files) = Ok r →
  NoDup (stem <$> files) →
  custom_commands r
  = entry <$> filter (λ f, skipped (_alias_map r) f = false) files
  ∧ Dict.keys (custom_commands r) `sublist_of` (stem <$> files).
Proof.
  intros Hinit Hnd.
  assert (custom_commands r
          = entry <$> filter (λ f, skipped (_alias_map r) f = false) files)
    as Heq.
  { rewrite (custom_commands_eq _ _ _ Hinit files eq_refl).
    rewrite set_all_fresh; [done|]. simpl. rewrite <- list_fmap_compose.
    eapply sublist_NoDup; [exact Hnd|]. apply fmap_sublist, sublist_filter. }
  split; [done|]. rewrite Heq, <- list_fmap_compose.
  apply fmap_sublist, sublist_filter.
Qed.

Lemma custom_commands_in_glob_order_witness :
  custom_commands sample_registry
  = entry <$> filter (λ f, skipped (_alias_map sample_registry) f = false)
                (default [] sample_dir)
  ∧ Dict.keys (custom_commands sample_registry)
      `sublist_of` (stem <$> default [] sample_dir).
Proof.
  apply (custom_commands_in_glob_order None (default [] sample_dir)
           sample_registry init_sample).
  apply (bool_decide_unpack _). by vm_compute.
Defined.

(** X12: only the set of excluded keys matters: order and repetitions in
    the exclusion list change nothing, and no list at all is the empty
    list. *)
Theorem exclusion_list_is_a_set dir :
  (∀ ex1 ex2 : list string,
     (∀ k, k ∈ ex1 ↔ k ∈ ex2) →
     __init__ (Some ex1) dir = __init__ (Some ex2) dir)
  ∧ __init__ None dir = __init__ (Some []) dir.
Proof.
  split; [|done]. intros ex1 ex2 Hset. unfold __init__.
  rewrite !init_with_surviving.
  assert (surviving (Some ex1) = surviving (Some ex2)) as ->; [|done].
  unfold surviving. apply filter_ext_elem. intros [k c] _. simpl.
  by rewrite Hset.
Qed.

Lemma exclusion_list_is_a_set_witness :
  __init__ (Some ["exit"; "log"; "exit"]) sample_dir
  = __init__ (Some ["log"; "exit"]) sample_dir.
Proof.
  apply (proj1 (exclusion_list_is_a_set sample_dir)).
  intros k. rewrite !elem_of_cons, !elem_of_nil. tauto.
Defined.

(** ** Rendering and describing a custom command *)

(** X13: rendering with the token itself as argument gives the template
    back, and a template that is just the token renders to the argument. *)
Theorem render_of_token_is_identity cmd :
  render cmd ARGUMENTS = template cmd
  ∧ ∀ arguments,
      render {| name := name cmd; template := ARGUMENTS |} arguments
      = arguments.
Proof.
  unfold render. split.
  - destruct (join_decompose "$" "ARGUMENTS" (template cmd))
      as (segs & -> & _ & Hall).
    by apply (replace_join "$" "ARGUMENTS").
  - intros arguments. cbn [template]. unfold ARGUMENTS.
    pose proof (replace_match "$" "ARGUMENTS" arguments "") as H.
    rewrite str_app_nil_r in H. rewrite H. apply str_app_nil_r.
Qed.

Lemma str_length_app (s t : string) :
  String.length (s ++ t) = (String.length s + String.length t)%nat.
Proof. induction s as [|c s IH]; [done|]. rewrite str_app_cons. simpl. lia. Qed.

Lemma take_length n s : (String.length (Str.take n s) ≤ n)%nat.
Proof.
  revert s. induction n as [|n IH]; intros [|c s]; simpl; try lia.
  specialize (IH s). lia.
Qed.

Lemma take_all n s : (String.length s ≤ n)%nat → Str.take n s = s.
Proof.
  revert s. induction n as [|n IH]; intros [|c s]; simpl; try done; [lia|].
  intros Hs. rewrite IH; [done|lia].
Qed.

Lemma free_of_app d s t : free_of d (s ++ t) ↔ free_of d s ∧ free_of d t.
Proof. unfold free_of. by rewrite all_chars_app, andb_true_iff. Qed.

Lemma free_of_not_occurs d s : free_of d s ↔ ¬ occurs (String d "") s.
Proof.
  split.
  - intros Hf (a & b & ->). apply free_of_app in Hf as [_ Hf].
    unfold free_of in Hf. simpl in Hf. by rewrite Ascii.eqb_refl in Hf.
  - unfold free_of. induction s as [|c s IH]; intros Hno; simpl; [done|].
    destruct (Ascii.eqb_spec c d) as [->|Hne]; simpl.
    + destruct Hno. by exists "", s.
    + apply IH. intros (a & b & ->). apply Hno. by exists (String c a), b.
Qed.

Lemma first_line_free s : free_of "010" (Str.first_line s).
Proof.
  unfold free_of. induction s as [|c s IH]; simpl; [done|].
  destruct (ascii_dec c "010") as [->|Hne]; simpl; [done|].
  rewrite IH, andb_true_r. by destruct (Ascii.eqb_spec c "010").
Qed.

Lemma take_free d n s : free_of d s → free_of d (Str.take n s).
Proof.
  unfold free_of. revert s. induction n as [|n IH]; intros [|c s]; simpl; try done.
  intros [-> Hs]%andb_true_iff. by apply IH.
Qed.

Lemma first_line_app line rest :
  free_of "010" line → rest = "" ∨ Str.startswith newline rest = true →
  Str.first_line (line ++ rest) = line.
Proof.
  unfold free_of, newline. induction line as [|c line IH]; intros Hf Hrest.
  - destruct Hrest as [->|Hr]; [done|].
    destruct rest as [|d rest]; [done|].
    change ("" ++ String d rest) with (String d rest).
    cbn [Str.startswith] in Hr. cbn [Str.first_line].
    destruct (ascii_dec "010" d) as [<-|]; [|done].
    by destruct (ascii_dec "010" "010").
  - rewrite str_app_cons. cbn [Str.first_line all_chars] in *.
    apply andb_true_iff in Hf as [Hc Hf].
    destruct (ascii_dec c "010") as [->|]; [done|]. by rewrite IH.
Qed.

Lemma first_line_empty s :
  Str.first_line s = "" ↔ s = "" ∨ Str.startswith newline s = true.
Proof.
  unfold newline. destruct s as [|c s]; [by split; [left|]|].
  cbn [Str.first_line Str.startswith].
  destruct (ascii_dec c "010") as [->|Hne].
  - split; [intros _; right|done]. by destruct (ascii_dec "010" "010").
  - split; [done|]. intros [?|H]; [done|].
    by destruct (ascii_dec "010" c) as [<-|].
Qed.

(** X14: the description of a custom command is one line of at most 61
    characters; it is ["Custom command"] exactly when the template is empty
    or starts with a newline, and otherwise shows the first line of the
    template, cut at 50 characters, between ["Custom: "] and ["..."]. *)
Theorem custom_description_shape cc :
  ¬ occurs newline (custom_description cc)
  ∧ (String.length (custom_description cc) ≤ 61)%nat
  ∧ (custom_description cc = "Custom command"
     ↔ template cc = "" ∨ Str.startswith newline (template cc) = true)
  ∧ (∀ line rest,
       template cc = line ++ rest → line ≠ "" →
       ¬ occurs newline line →
       rest = "" ∨ Str.startswith newline rest = true →
       custom_description cc = "Custom: " ++ Str.take 50 line ++ "..."
       ∧ ((String.length line ≤ 50)%nat →
          custom_description cc = "Custom: " ++ line ++ "...")).
Proof.
  unfold custom_description.
  pose proof (first_line_free (template cc)) as Hfree.
  pose proof (take_free _ 50 _ Hfree) as Hfree'.
  pose proof (take_length 50 (Str.first_line (template cc))) as Hlen.
  split; [|split; [|split; [split|]]].
  - apply free_of_not_occurs.
    destruct (Str.take 50 _) as [|c p] eqn:Hp; [done|].
    rewrite !free_of_app. by repeat split.
  - destruct (Str.take 50 _) as [|c p] eqn:Hp; [simpl; lia|].
    rewrite !str_length_app. simpl in *. lia.
  - destruct (Str.take 50 _) as [|c p] eqn:Hp; [|done].
    intros _. apply first_line_empty.
    destruct (Str.first_line (template cc)); [done|discriminate Hp].
  - intros Hempty%first_line_empty. by rewrite Hempty.
  - intros line rest Ht Hne Hno Hrest.
    apply free_of_not_occurs in Hno.
    rewrite Ht, first_line_app by done.
    assert (Str.take 50 line ≠ "") as Htake by by destruct line.
    split.
    + by destruct (Str.take 50 line).
    + intros Hshort. rewrite take_all in * by done. by destruct line.
Qed.

Lemma custom_description_shape_witness :
  custom_description {| name := "review";
                        template := "Review $ARGUMENTS" ++ newline ++ "in depth" |}
  = "Custom: " ++ "Review $ARGUMENTS" ++ "...".
Proof.
  apply (proj2 (proj2 (proj2 (custom_description_shape
            {| name := "review";
               template := "Review $ARGUMENTS" ++ newline ++ "in depth" |})))
           "Review $ARGUMENTS" (newline ++ "in depth")).
  - reflexivity.
  - done.
  - by apply not_occurs.
  - by right.
  - simpl. lia.
Defined.

(** ** What the help text mentions *)

Lemma occurs_refl p : occurs p p.
Proof. exists "", "". by rewrite str_app_nil_r. Qed.

Lemma occurs_mid p a s b : occurs p s → occurs p (a ++ s ++ b).
Proof.
  intros (x & y & ->). exists (a ++ x), (y ++ b).
  by rewrite !str_app_assoc.
Qed.

Lemma occurs_join p sep x l :
  x ∈ l → occurs p x → occurs p (Str.join sep l).
Proof.
  intros Hx Hp. induction l as [|y l IH]; [by apply elem_of_nil in Hx|].
  destruct l as [|z l].
  - apply elem_of_cons in Hx as [->|Hx]; [done|by apply elem_of_nil in Hx].
  - cbn [Str.join]. apply elem_of_cons in Hx as [->|Hx].
    + by apply (occurs_mid p "" y).
    + specialize (IH Hx).
      pose proof (occurs_mid p (y ++ sep) _ "" IH) as H.
      by rewrite str_app_nil_r, str_app_assoc in H.
Qed.

Lemma command_line_names_alias c a :
  a ∈ aliases c → occurs (quote a) (command_line c).
Proof.
  intros Ha. unfold command_line. apply occurs_mid.
  apply (occurs_join _ _ (quote a)); [|apply occurs_refl].
  apply list_elem_of_fmap. exists a. split; [done|].
  by rewrite sorted_perm.
Qed.

Lemma custom_line_names_command cc :
  occurs ("`/" ++ name cc ++ "`") (custom_line cc).
Proof.
  unfold custom_line.
  exists "- ", (": " ++ custom_description cc).
  change ("- `/" ++ name cc ++ "`: " ++ custom_description cc)
    with ("- " ++ "`/" ++ name cc ++ "`" ++ ": " ++ custom_description cc).
  by rewrite !str_app_assoc.
Qed.

(** X15: the help text names everything that resolves: each alias of the
    index appears in it between backticks, and so does [/name] for each
    custom command of the table. *)
Theorem help_text_names_every_command excluded_commands dir r :
  __init__ excluded_commands dir = Ok r →
  (∀ a k, _alias_map r !! a = Some k → occurs (quote a) (get_help_text r))
  ∧ (∀ n cc, (n, cc) ∈ custom_commands r →
             occurs ("`/" ++ n ++ "`") (get_help_text r)).
Proof.
  intros Hinit. pose proof Hinit as Hinit'. unfold __init__ in Hinit'.
  unfold get_help_text. rewrite help_lines_layout. unfold help_layout.
  split.
  - intros a k (c & Hkc & Ha)%(alias_map_Some _ _ _ _ iter_ok_id Hinit').
    apply (occurs_join _ _ (command_line c));
      [|by apply command_line_names_alias].
    rewrite !elem_of_app. right. left.
    apply list_elem_of_fmap. exists c. split; [done|].
    apply list_elem_of_fmap. exists (k, c). split; [done|].
    by rewrite (init_commands _ _ _ _ Hinit').
  - intros n cc Hin.
    rewrite <- (custom_commands_name _ _ _ Hinit _ _ Hin).
    apply (occurs_join _ _ (custom_line cc));
      [|apply custom_line_names_command].
    rewrite !elem_of_app. right. right. unfold custom_section.
    destruct (custom_commands r) as [|kc rest] eqn:Hcc;
      [by apply elem_of_nil in Hin|].
    do 3 right. rewrite <- Hcc.
    apply list_elem_of_fmap. exists cc. split; [done|].
    apply list_elem_of_fmap. exists (n, cc). split; [done|]. by rewrite Hcc.
Qed.

Lemma help_text_names_every_command_witness :
  occurs (quote "/theme") (get_help_text sample_registry)
  ∧ occurs ("`/" ++ "Deploy" ++ "`") (get_help_text sample_registry).
Proof.
  pose proof (help_text_names_every_command None sample_dir sample_registry
                init_sample) as [Hb Hc].
  split.
  - apply (Hb "/theme" "config"). by vm_compute.
  - apply (Hc "Deploy" {| name := "Deploy"; template := "Deploy it" |}).
    repeat constructor.
Defined.

(** ** Composing an input line *)








(** X17: among the commands [find_command] can return, the one that ends
    the session is the one reached through ["/exit"], and no other. *)
Theorem only_exit_ends_the_session excluded_commands dir r user_input c :
  __init__ excluded_commands dir = Ok r →
  find_command r user_input = Some c →
  exits c = true ↔ normalize user_input = "/exit".
Proof.
  intros Hinit (k & Hk & _ & Hget)%find_command_inv.
  destruct (alias_owner _ _ _ Hinit _ _ _ Hk Hget)
    as [[_ Hkc]%elem_of_surviving Ha].
  rewrite <- lower_strip in Ha. fold (normalize user_input) in Ha |- *.
  assert (Forall (λ kc : string * Command,
            Forall (λ a, exits kc.2 = true ↔ a = "/exit") (aliases kc.2))
            builtin_commands) as Hall.
  { apply (bool_decide_unpack _). by vm_compute. }
  rewrite Forall_forall in Hall. specialize (Hall _ Hkc).
  rewrite Forall_forall in Hall. by apply Hall.
Qed.

Lemma only_exit_ends_the_session_witness :
  exits exit_command = true ↔ normalize " /EXIT" = "/exit".
Proof.
  apply (only_exit_ends_the_session None None default_registry " /EXIT"
           exit_command init_default).
  reflexivity.
Defined.

(** ** The help text, line by line *)

Lemma split_lines_nonempty s : split_lines s ≠ [].
Proof.
  destruct s as [|c s]; [done|]. cbn [split_lines].
  destruct (ascii_dec c "010"); [done|]. by destruct (split_lines s).
Qed.

Lemma split_lines_free s : free_of "010" s → split_lines s = [s].
Proof.
  unfold free_of. induction s as [|c s IH]; [done|].
  cbn [split_lines all_chars]. intros [Hc Hs]%andb_true_iff.
  destruct (ascii_dec c "010") as [->|_]; [done|]. by rewrite IH.
Qed.

(** A newline in the text ends one line and starts the next. *)
Lemma split_lines_newline s t :
  split_lines (s ++ newline ++ t) = (split_lines s ++ split_lines t)%list.
Proof.
  induction s as [|c s IH].
  - change ("" ++ newline ++ t) with (String "010" t). cbn [split_lines].
    by destruct (ascii_dec "010" "010").
  - rewrite str_app_cons. cbn [split_lines]. rewrite IH.
    destruct (ascii_dec c "010"); [done|].
    pose proof (split_lines_nonempty s). by destruct (split_lines s).
Qed.

Lemma split_lines_join l :
  l ≠ [] → split_lines (Str.join newline l) = mjoin (split_lines <$> l).
Proof.
  induction l as [|x l IH]; [done|]. intros _. destruct l as [|y l].
  - csimpl. by rewrite app_nil_r.
  - change (Str.join newline (x :: y :: l))
      with (x ++ newline ++ Str.join newline (y :: l)).
    by rewrite split_lines_newline, IH.
Qed.

Lemma split_lines_each l :
  Forall (free_of "010") l → mjoin (split_lines <$> l) = l.
Proof.
  induction 1 as [|x l Hx Hl IH]; [done|]. csimpl.
  by rewrite split_lines_free, IH.
Qed.

Lemma comma_tail_join l :
  comma_tail l
  = match l with [] => "" | _ => ", " ++ Str.join ", " (quote <$> l) end.
Proof.
  induction l as [|a l IH]; [done|]. cbn [comma_tail]. rewrite IH.
  destruct l as [|b l]; csimpl; unfold quote.
  - by rewrite !str_app_nil_r.
  - by rewrite !str_app_assoc.
Qed.

(** The comma-joined, backtick-quoted aliases, as text. *)
Lemma join_quote_alias_text l :
  Str.join ", " (quote <$> l) = alias_text l.
Proof.
  destruct l as [|a l]; [done|]. unfold alias_text.
  rewrite comma_tail_join. destruct l as [|b l]; csimpl; unfold quote.
  - by rewrite !str_app_nil_r.
  - by rewrite !str_app_assoc.
Qed.

Lemma command_line_text c :
  command_line c = builtin_help_line (Str.sorted (aliases c)) c.
Proof.
  unfold command_line, builtin_help_line.
  by rewrite <- join_quote_alias_text.
Qed.

Lemma preamble_lines_single : Forall (free_of "010") help_preamble.
Proof. by repeat constructor. Qed.

Lemma builtin_lines_free cmds :
  cmds ⊆ Dict.values builtin_commands →
  Forall (free_of "010") (command_line <$> cmds).
Proof.
  intros Hsub. apply Forall_fmap, Forall_forall. intros c Hc. simpl.
  by apply free_of_not_occurs, builtin_lines_single, Hsub.
Qed.

Lemma custom_description_single cc : free_of "010" (custom_description cc).
Proof.
  unfold custom_description.
  pose proof (take_free _ 50 _ (first_line_free (template cc))) as Hfree.
  destruct (Str.take 50 _); [done|]. rewrite !free_of_app. by repeat split.
Qed.

Lemma custom_section_free custom :
  (∀ n cc, (n, cc) ∈ custom → ¬ occurs newline n) →
  (∀ n cc, (n, cc) ∈ custom → name cc = n) →
  Forall (free_of "010") (custom_section custom).
Proof.
  intros Hn Hname. unfold custom_section.
  destruct custom as [|kc rest] eqn:Hc; [done|]. rewrite <- Hc in *.
  repeat (constructor; [done|]).
  apply Forall_fmap, Forall_fmap, Forall_forall. intros [n cc] Hin. simpl.
  rewrite !free_of_app. repeat split; try done.
  - rewrite (Hname n cc Hin). by apply free_of_not_occurs, (Hn n cc).
  - apply custom_description_single.
Qed.

Lemma heading_in_custom_section custom :
  custom ≠ [] →
  "### Custom Commands" ∈ mjoin (split_lines <$> custom_section custom).
Proof.
  destruct custom as [|kc rest]; [done|]. intros _. unfold custom_section.
  csimpl. right. left.
Qed.

(** C8: read line by line, the help text is the fixed preamble, then
    exactly one line per surviving built-in in catalog order, each showing
    the aliases of the command in ascending order, between backticks and
    separated by commas, and then its description; a "Custom Commands"
    section listing each custom command by [/name] follows exactly when
    there are custom commands. *)
Theorem help_text_layout excluded_commands dir r :
  __init__ excluded_commands dir = Ok r →
  split_lines (get_help_text r)
  = (help_preamble
     ++ ((λ c, builtin_help_line (Str.sorted (aliases c)) c)
           <$> Dict.values (surviving excluded_commands))
     ++ mjoin (split_lines <$> custom_section (custom_commands r)))%list
  ∧ Dict.values (surviving excluded_commands)
      `sublist_of` Dict.values builtin_commands
  ∧ (∀ c, c ∈ Dict.values (surviving excluded_commands) →
       Str.sorted (aliases c) ≡ₚ aliases c
       ∧ StronglySorted String.le (Str.sorted (aliases c))
       ∧ ¬ occurs newline (builtin_help_line (Str.sorted (aliases c)) c))
  ∧ ("### Custom Commands" ∈ split_lines (get_help_text r)
     ↔ custom_commands r ≠ [])
  ∧ ((∀ n cc, (n, cc) ∈ custom_commands r → ¬ occurs newline n) →
     mjoin (split_lines <$> custom_section (custom_commands r))
     = custom_section (custom_commands r))
  ∧ get_help_text r
    = Str.join newline
        (help_preamble
         ++ (command_line <$> Dict.values (surviving excluded_commands))
         ++ custom_section (custom_commands r))%list.
Proof.
  intros Hinit. pose proof Hinit as Hinit'. unfold __init__ in Hinit'.
  assert (get_help_text r
          = Str.join newline
              (help_preamble
               ++ (command_line <$> Dict.values (surviving excluded_commands))
               ++ custom_section (custom_commands r))%list) as Htext.
  { unfold get_help_text. rewrite help_lines_layout.
    by rewrite (init_commands _ _ _ _ Hinit'). }
  assert (split_lines (get_help_text r)
          = (help_preamble
             ++ (command_line <$> Dict.values (surviving excluded_commands))
             ++ mjoin (split_lines <$> custom_section (custom_commands r)))%list)
    as Hlines.
  { rewrite Htext, split_lines_join by done.
    rewrite !fmap_app, !join_app.
    rewrite (split_lines_each help_preamble) by apply preamble_lines_single.
    rewrite (split_lines_each (command_line <$> _)); [done|].
    apply builtin_lines_free. intros c Hc.
    eapply sublist_subseteq; [apply surviving_values_sublist|done]. }
  split; [|split; [|split; [|split; [|split]]]]; try done.
  - rewrite Hlines. do 2 f_equal. apply list_fmap_ext.
    intros i c _. apply command_line_text.
  - apply surviving_values_sublist.
  - intros c Hc. repeat split.
    + apply sorted_perm.
    + apply sorted_Sorted.
    + rewrite <- command_line_text. apply builtin_lines_single.
      eapply sublist_subseteq; [apply surviving_values_sublist|done].
  - rewrite Hlines, app_assoc, elem_of_app. split.
    + intros [H|H]; [by apply heading_not_command_line in H|].
      intros Hc. rewrite Hc in H. by apply elem_of_nil in H.
    + intros Hc. right. by apply heading_in_custom_section.
  - intros Hnames. apply split_lines_each, custom_section_free; [done|].
    apply (custom_commands_name _ _ _ Hinit).
Qed.

Lemma help_text_layout_witness :
  split_lines (get_help_text default_registry)
  = [ "### Keyboard Shortcuts";
      "";
      "- `Enter` Submit message";
      "- `Ctrl+J` / `Shift+Enter` Insert newline";
      "- `Escape` Interrupt agent or close dialogs";
      "- `Ctrl+C` Quit (or clear input if text present)";
      "- `Ctrl+O` Toggle tool output view";
      "- `Ctrl+T` Toggle todo view";
      "- `Shift+Tab` Toggle auto-approve mode";
      "";
      "### Special Features";
      "";
      "- `!<command>` Execute bash command directly";
      "- `@path/to/file/` Autocompletes file paths";
      "";
      "### Commands";
      "";
      "- `/help`: Show help message";
      "- `/config`, `/model`, `/theme`: Edit config settings";
      "- `/reload`: Reload configuration from disk";
      "- `/clear`: Clear conversation history";
      "- `/log`: Show path to current interaction log file";
      "- `/compact`: Compact conversation history by summarizing";
      "- `/exit`: Exit the application";
      "- `/terminal-setup`: Configure Shift+Enter for newlines";
      "- `/status`: Display agent statistics" ]
  ∧ split_lines (get_help_text sample_registry)
    = (split_lines (get_help_text default_registry)
       ++ [ "";
            "### Custom Commands";
            "";
            "- `/review`: Custom: Review $ARGUMENTS please...";
            "- `/Deploy`: Custom: Deploy it..." ])%list
  ∧ "### Custom Commands" ∈ split_lines (get_help_text sample_registry).
Proof.
  pose proof (help_text_layout None None default_registry init_default)
    as (Hdefault & _).
  pose proof (help_text_layout None sample_dir sample_registry init_sample)
    as (Hsample & _ & _ & Hheading & Hsection & _).
  split; [|split].
  - rewrite Hdefault. reflexivity.
  - rewrite Hsample, Hdefault, Hsection.
    + reflexivity.
    + intros n cc Hin. apply not_occurs.
      assert (Forall (λ kc : string * CustomCommand,
                        occursb newline kc.1 = false)
                     (custom_commands sample_registry)) as Hall
        by by repeat constructor.
      rewrite Forall_forall in Hall. apply (Hall (n, cc) Hin).
  - apply Hheading. done.
Defined.
